(** * Vigilis: the simulated patrol movement of [EmbeddedMap.tsx]

    A shallow embedding of the unit movement simulator that lives in
    [frontend/vigilis/app/components/map/EmbeddedMap.tsx]
    ([easeInOutCubic], [fetchPatrolRoute], the per-officer body of
    [animateOfficers]), followed by models of the proximity query and of
    the sync cycle, whose Python sources are not part of the tree.

    Numbers.  Every JavaScript [number] is read as a real number: the
    arithmetic is exact, [Math.sin], [Math.cos], [Math.sqrt] are the
    functions of the Standard Library's [Reals], [Math.atan2] is built
    from [atan] by the usual quadrant analysis, and [Math.random()] is an
    explicit argument [rnd] with [0 <= rnd < 1].  [Date.now()] is the
    explicit argument [now].  Rounding, NaN and signed zeros are outside
    the model. *)

From Stdlib Require Import Reals Lra Lia Psatz.
From stdpp Require Import base option list sorting strings gmap fin_maps.

Local Open Scope R_scope.

(** ** JavaScript numeric primitives *)

Module Js.

(** [Math.min(a, b)]. *)
Definition min (a b : R) : R := Rmin a b.

(** [Math.pow(x, 3)]. *)
Definition pow3 (x : R) : R := x ^ 3.

(** [Math.atan2(y, x)] on finite arguments: the angle of the point
    [(x, y)], in (-PI, PI]. *)
Definition atan2 (y x : R) : R :=
  if Rlt_dec 0 x then atan (y / x)
  else if Rlt_dec x 0 then
    if Rle_dec 0 y then atan (y / x) + PI else atan (y / x) - PI
  else
    if Rlt_dec 0 y then PI / 2
    else if Rlt_dec y 0 then - (PI / 2)
    else 0.

(** [x || d] for a numeric [x]: the default replaces a falsy [0]. *)
Definition or_num (x d : R) : R := if Req_dec_T x 0 then d else x.

End Js.

(** ** [easeInOutCubic] *)

(** [return t < 0.5 ? 4 * t * t * t : 1 - Math.pow(-2 * t + 2, 3) / 2;] *)
Definition easeInOutCubic (t : R) : R :=
  if Rlt_dec t (1 / 2) then 4 * t * t * t
  else 1 - Js.pow3 (-2 * t + 2) / 2.


(** ** Data of the simulator *)

(** A coordinate pair [[lng, lat]]. *)
Definition point : Type := R * R.

(** [interface PoliceOfficer]; only the fields the animation reads.
    [heading] and [dispatched] are optional. *)
Record PoliceOfficer : Type := mkOfficer {
  o_id : string;
  o_name : string;
  o_role : string;
  o_location : point;
  o_heading : option R;
  o_dispatched : option bool
}.

(** The value type of the [officerData] map. *)
Record OfficerData : Type := mkData {
  current : point;
  route : list point;
  routeIndex : nat;
  heading : R;
  waitingUntil : option R;
  segmentProgress : R;
  segmentStartTime : R
}.

(** The GeoJSON feature emitted for an officer in one frame. *)
Record Feature : Type := mkFeature {
  f_id : string;
  f_name : string;
  f_role : string;
  f_heading : R;
  f_dispatched : bool;
  f_coordinates : point
}.

(** Constants of [animateOfficers]. *)
Definition epsilon : R := 5 / 1000000.            (* 0.000005 *)
Definition baseSpeed : R := 15 / 10000000.        (* 0.0000015 *)
Definition estimatedDuration : R := 15000.

(** [officer.dispatched || false]. *)
Definition dispatched_or_false (o : PoliceOfficer) : bool :=
  match o_dispatched o with Some b => b | None => false end.

Definition feature (o : PoliceOfficer) (h : R) (c : point) : Feature :=
  {| f_id := o_id o; f_name := o_name o; f_role := o_role o;
     f_heading := h; f_dispatched := dispatched_or_false o;
     f_coordinates := c |}.

(** ** Initialisation: the [officers.forEach] of [addPoliceOfficers] *)

(** [officer.heading || Math.random() * 360]. *)
Definition initialHeading (rnd : R) (o : PoliceOfficer) : R :=
  match o_heading o with
  | Some h => Js.or_num h (rnd * 360)
  | None => rnd * 360
  end.

Definition initOfficer (now rnd : R) (o : PoliceOfficer) : OfficerData :=
  {| current := o_location o;
     route := [];
     routeIndex := 0;
     heading := initialHeading rnd o;
     waitingUntil := None;
     segmentProgress := 0;
     segmentStartTime := now |}.

(** ** [fetchPatrolRoute] *)

(** The coordinate list of the Directions request:
    [start;waypoint1;waypoint2;start].  [r1] and [r2] are the two
    [Math.random()] draws. *)
Definition patrolWaypoints (start : point) (r1 r2 : R) : list point :=
  let distance := 2 / 1000 in                      (* 0.002 *)
  let angle1 := r1 * PI * 2 in
  let angle2 := angle1 + PI / 2 + (r2 - 1 / 2) * PI in
  let waypoint1 :=
    (fst start + cos angle1 * distance, snd start + sin angle1 * distance) in
  let waypoint2 :=
    (fst start + cos angle2 * distance, snd start + sin angle2 * distance) in
  [start; waypoint1; waypoint2; start].

Record DirectionsRequest : Type := mkRequest {
  req_coordinates : list point;
  req_access_token : string
}.

(** One entry of [data.routes]: [route.geometry] may be missing, and so may
    [route.geometry.coordinates]. *)
Inductive RouteJson : Type :=
| NoGeometry
| Geometry (coordinates : option (list point)).

(** What [await fetch(url)] followed by [await response.json()] gives:
    a rejection of either promise, or the parsed body with its optional
    [routes] array. *)
Inductive FetchOutcome : Type :=
| Rejected
| Body (routes : option (list RouteJson)).

(** The value the promise of [fetchPatrolRoute] resolves to.  The function
    has no path on which the promise rejects: [RouteUndefined] is the
    [undefined] read from a geometry without coordinates. *)
Inductive RouteResult : Type :=
| RouteNull
| RouteUndefined
| RouteCoords (r : list point).

(** [!token]: the token is missing or the empty string. *)
Definition falsy_token (token : option string) : bool :=
  match token with
  | None => true
  | Some EmptyString => true
  | Some (String _ _) => false
  end.

Definition fetchPatrolRoute
    (token : option string) (fetch : DirectionsRequest -> FetchOutcome)
    (r1 r2 : R) (start : point) : RouteResult :=
  match token with
  | None => RouteNull
  | Some EmptyString => RouteNull
  | Some tok =>
      match fetch (mkRequest (patrolWaypoints start r1 r2) tok) with
      | Rejected => RouteNull                      (* caught, logged *)
      | Body None => RouteNull
      | Body (Some []) => RouteNull
      | Body (Some (NoGeometry :: _)) => RouteNull (* TypeError, caught *)
      | Body (Some (Geometry None :: _)) => RouteUndefined
      | Body (Some (Geometry (Some cs) :: _)) => RouteCoords cs
      end
  end.

(** The [.then] callback: [if (data && route) { data.route = route;
    data.routeIndex = 0; }]. *)
Definition installRoute (k : string) (r : RouteResult)
    (st : gmap string OfficerData) : gmap string OfficerData :=
  match st !! k, r with
  | Some d, RouteCoords cs =>
      <[k := mkData (current d) cs 0 (heading d) (waitingUntil d)
                    (segmentProgress d) (segmentStartTime d)]> st
  | _, _ => st
  end.

(** ** One frame of [animateOfficers], for one officer *)

(** Euclidean distance in coordinate space, [Math.sqrt(dx * dx + dy * dy)]. *)
Definition dist (p q : point) : R :=
  let dx := fst q - fst p in
  let dy := snd q - snd p in
  sqrt (dx * dx + dy * dy).

(** [Math.min(elapsed / estimatedDuration, 1)]. *)
Definition progressAt (now : R) (d : OfficerData) : R :=
  Js.min ((now - segmentStartTime d) / estimatedDuration) 1.

(** [1 + Math.sin(easedProgress * Math.PI) * 2], as a function of the
    segment progress. *)
Definition speedMultiplier (progress : R) : R :=
  1 + sin (easeInOutCubic progress * PI) * 2.

(** [(Math.atan2(dy, dx) * 180) / Math.PI]. *)
Definition headingTo (dx dy : R) : R := (Js.atan2 dy dx * 180) / PI.

(** "Done waiting, clear the wait state and reset segment progress". *)
Definition clearWait (now : R) (d : OfficerData) : OfficerData :=
  mkData (current d) (route d) (routeIndex d) (heading d)
         None 0 now.

(** "Still moving towards current waypoint with easing": the branch
    [distance > 0.000005]. *)
Definition advance (now : R) (targetPoint : point) (d : OfficerData)
  : OfficerData :=
  let dx := fst targetPoint - fst (current d) in
  let dy := snd targetPoint - snd (current d) in
  let distance := sqrt (dx * dx + dy * dy) in
  let progress := progressAt now d in
  let adjustedSpeed := baseSpeed * speedMultiplier progress in
  let ratio := Js.min (adjustedSpeed / distance) 1 in
  mkData (fst (current d) + dx * ratio, snd (current d) + dy * ratio)
         (route d) (routeIndex d)
         (headingTo dx dy)
         (waitingUntil d) progress (segmentStartTime d).

(** [data.routeIndex++; if (data.routeIndex >= data.route.length)
    data.routeIndex = 0;]. *)
Definition nextIndex (d : OfficerData) : nat :=
  if (length (route d) <=? S (routeIndex d))%nat then 0%nat
  else S (routeIndex d).

(** "Reached waypoint (intersection), start waiting". *)
Definition arrive (now rnd : R) (d : OfficerData) : OfficerData :=
  mkData (current d) (route d) (nextIndex d) (heading d)
         (Some (now + 2000 + rnd * 1000))
         (segmentProgress d) (segmentStartTime d).

(** "Move along the route".  [None] is the [TypeError] of reading
    [targetPoint[0]] when [route[routeIndex]] is [undefined]. *)
Definition moveAlong (now rnd : R) (d : OfficerData) : option OfficerData :=
  match route d !! routeIndex d with
  | None => None
  | Some targetPoint =>
      if Rlt_dec epsilon (dist (current d) targetPoint)
      then Some (advance now targetPoint d)
      else Some (arrive now rnd d)
  end.

(** The block "Check if officer is waiting at an intersection": [None] is
    its early return (still waiting, nothing is touched); otherwise the
    entry with which the callback goes on to "Move along the route",
    cleared when a wait has just run out. *)
Definition waitGate (now : R) (d : OfficerData) : option OfficerData :=
  match waitingUntil d with
  | Some deadline =>
      if Rlt_dec now deadline then None else Some (clearWait now d)
  | None => Some d
  end.

(** The state update of the callback of [currentOfficers.map] for an
    officer that has an entry in [officerData]. *)
Definition step (now rnd : R) (d : OfficerData) : option OfficerData :=
  match route d with
  | [] => Some d                                   (* no route yet *)
  | _ :: _ =>
      match waitGate now d with
      | None => Some d                             (* still waiting *)
      | Some d0 => moveAlong now rnd d0
      end
  end.

(** The feature returned by the callback.  Without a route the heading is
    [data?.heading || 0] and the coordinates [data?.current ||
    officer.location]; otherwise they are read from the updated entry. *)
Definition emit (o : PoliceOfficer) (before : option OfficerData)
    (after : OfficerData) : Feature :=
  match before with
  | None => feature o 0 (o_location o)
  | Some d =>
      match route d with
      | [] => feature o (Js.or_num (heading d) 0) (current d)
      | _ :: _ => feature o (heading after) (current after)
      end
  end.

(** The callback of [currentOfficers.map]: the emitted feature and the
    officer's entry after the frame. *)
Definition animateOfficer (now rnd : R) (o : PoliceOfficer)
    (data : option OfficerData) : option (Feature * option OfficerData) :=
  match data with
  | None => Some (feature o 0 (o_location o), None)
  | Some d =>
      match step now rnd d with
      | None => None
      | Some d' => Some (emit o (Some d) d', Some d')
      end
  end.

(** A frame of [animateOfficers] over [currentOfficers], threading the
    shared [officerData] map; each officer comes with the draw it would
    make on arrival.  A thrown [TypeError] aborts the frame. *)
Fixpoint animateOfficers (now : R) (officers : list (PoliceOfficer * R))
    (st : gmap string OfficerData)
  : option (list Feature * gmap string OfficerData) :=
  match officers with
  | [] => Some ([], st)
  | (o, rnd) :: rest =>
      match animateOfficer now rnd o (st !! o_id o) with
      | None => None
      | Some (f, data') =>
          let st' := match data' with
                     | Some d' => <[o_id o := d']> st
                     | None => st
                     end in
          match animateOfficers now rest st' with
          | None => None
          | Some (fs, st'') => Some (f :: fs, st'')
          end
      end
  end.

(** The frames of one officer at the successive clock readings and draws
    of [ticks]: the features emitted and the final entry. *)
Fixpoint run (o : PoliceOfficer) (ticks : list (R * R)) (d : OfficerData)
  : option (list Feature * OfficerData) :=
  match ticks with
  | [] => Some ([], d)
  | (now, rnd) :: rest =>
      match step now rnd d with
      | None => None
      | Some d' =>
          match run o rest d' with
          | None => None
          | Some (fs, d'') => Some (emit o (Some d) d' :: fs, d'')
          end
      end
  end.

(** ** Auxiliary notions for the properties of a frame *)

(** The point reached from [p] after the fraction [k] of the way to [q]. *)
Definition along (p q : point) (k : R) : point :=
  (fst p + (fst q - fst p) * k, snd p + (snd q - snd p) * k).

(** The interpolation factor of [advance]. *)
Definition ratioAt (now : R) (targetPoint : point) (d : OfficerData) : R :=
  Js.min (baseSpeed * speedMultiplier (progressAt now d)
          / dist (current d) targetPoint) 1.

(** The waypoint index points into the route whenever there is one. *)
Definition index_ok (d : OfficerData) : Prop :=
  route d = [] \/ (routeIndex d < length (route d))%nat.

(** The outcomes of the request on which [fetchPatrolRoute] reads no
    route: a rejected promise, a body without [routes], an empty [routes]
    array. *)
Definition no_route (out : FetchOutcome) : bool :=
  match out with
  | Rejected => true
  | Body None => true
  | Body (Some []) => true
  | Body (Some (_ :: _)) => false
  end.

(** ** Concrete scenarios *)

(** Two points 0.001 degrees apart on a meridian of downtown Atlanta, and
    a point 0.000004 degrees short of the first on the way north. *)
Definition plaza : point := (-84388 / 1000, 33749 / 1000).
Definition south_of_plaza : point := (-84388 / 1000, 33748 / 1000).
Definition short_of_plaza : point := (-84388 / 1000, 33748996 / 1000000).

(** The closed patrol loop from [plaza] to [south_of_plaza] and back. *)
Definition loop : list point := [plaza; south_of_plaza; plaza].

(** A unit that has come to rest within [epsilon] of the last waypoint of
    [loop], heading north: the index has wrapped to 0 and the dwell runs
    out at clock reading 11500. *)
Definition back_at_start : OfficerData :=
  mkData short_of_plaza loop 0 90 (Some 11500) (3 / 5) 0.

(** A unit on its way from [plaza] to [south_of_plaza], segment started
    at clock reading 0. *)
Definition heading_south : OfficerData :=
  mkData plaza loop 1 90 None 0 0.

(** ** The tracking back end: position store, proximity query, sync cycle

    The Python modules of the back end ([redis_client.py] with
    [get_nearby_cars], [location_sync.py]) are not in the tree; the
    definitions of this part follow the written specification. *)

#[local] Instance Rle_decision (x y : R) : Decision (x <= y) := Rle_dec x y.

Module Tracking.

(** Modelled from the spec: the payload of a [PositionRecord] (section
    3); the Python record type is missing from the tree.  The key
    [unit_id] is the key of the store. *)
Record Position : Type := mkPosition {
  lat : R;
  lng : R;
  speed : R;
  heading : R;
  observed_at : R
}.

(** Modelled from the spec: [list_all()], the snapshot of the Position
    Store (section 4.1), a last-value-wins register per [unit_id]; the
    store of [redis_client.py] is missing from the tree. *)
Definition list_all (store : gmap string Position)
  : list (string * Position) :=
  map_to_list store.

(** Modelled from the spec: Earth's mean radius in km (section 4.3). *)
Definition earth_radius_km : R := 6371.

Definition radians (deg : R) : R := deg * PI / 180.

(** Modelled from the spec: the great-circle distance of section 4.3,
    [a = sin^2(dlat/2) + cos(lat1) * cos(lat2) * sin^2(dlng/2)] and
    [distance = 2 * R * atan2(sqrt a, sqrt (1 - a))] on coordinates
    converted to radians; the Python function is missing from the
    tree. *)
Definition haversine_km (lat1 lng1 lat2 lng2 : R) : R :=
  let phi1 := radians lat1 in
  let phi2 := radians lat2 in
  let dlat := radians (lat2 - lat1) in
  let dlng := radians (lng2 - lng1) in
  let a := (sin (dlat / 2))² + cos phi1 * cos phi2 * (sin (dlng / 2))² in
  2 * earth_radius_km * Js.atan2 (sqrt a) (sqrt (1 - a)).

(** One answer of the proximity query: [(unit_id, position,
    distance_km)]. *)
Definition Hit : Type := string * Position * R.

Definition distance_km (h : Hit) : R := snd h.

Definition closer (h1 h2 : Hit) : Prop := distance_km h1 <= distance_km h2.

#[local] Instance closer_decision (h1 h2 : Hit) : Decision (closer h1 h2) :=
  Rle_dec (distance_km h1) (distance_km h2).

Definition measure (center_lat center_lng : R) (e : string * Position)
  : Hit :=
  (e, haversine_km center_lat center_lng (lat (snd e)) (lng (snd e))).

(** Modelled from the spec: [query(center_lat, center_lng, radius_km)]
    of section 4.3 ([get_nearby_cars] of the missing
    [redis_client.py]): measure every record of the snapshot, keep
    those with [distance_km <= radius_km], order ascending by
    distance. *)
Definition query (store : gmap string Position)
    (center_lat center_lng radius_km : R) : list Hit :=
  merge_sort closer
    (filter (fun h => distance_km h <= radius_km)
            (measure center_lat center_lng <$> list_all store)).

(** Modelled from the spec: the [SyncCheckpoint] counters (section 3). *)
Record SyncCheckpoint : Type := mkCheckpoint {
  total_sync_cycles : nat;
  successful_upserts : nat;
  failed_upserts : nat;
  last_cycle_at : option R
}.

Section SyncCycle.

(** The durable record store, an external collaborator. *)
Context {Durable : Type}.

(** The state of one cycle in progress: the counters, the durable
    store, and the [unit_id]s attempted so far. *)
Definition Progress : Type := SyncCheckpoint * Durable * list string.

(** Modelled from the spec: steps 2 and 3 of the cycle (section 4.4)
    for one record; [upsert] returns [None] when the durable store
    reports a failure for the record.  [location_sync.py] is missing
    from the tree. *)
Definition sync_record
    (upsert : Durable -> string * Position -> option Durable)
    (acc : Progress) (rec : string * Position) : Progress :=
  let '(c, db, attempted) := acc in
  match upsert db rec with
  | Some db' =>
      (mkCheckpoint (total_sync_cycles c) (S (successful_upserts c))
                    (failed_upserts c) (last_cycle_at c),
       db', attempted ++ [fst rec])
  | None =>
      (mkCheckpoint (total_sync_cycles c) (successful_upserts c)
                    (S (failed_upserts c)) (last_cycle_at c),
       db, attempted ++ [fst rec])
  end.

(** What the durable store answers to each attempt of a cycle, in
    snapshot order: [true] for an upsert it accepts.  The store is
    threaded from one attempt to the next as the cycle threads it. *)
Fixpoint outcomes
    (upsert : Durable -> string * Position -> option Durable)
    (records : list (string * Position)) (db : Durable) : list bool :=
  match records with
  | [] => []
  | rec :: rest =>
      match upsert db rec with
      | Some db' => true :: outcomes upsert rest db'
      | None => false :: outcomes upsert rest db
      end
  end.

(** Modelled from the spec: one sync cycle (section 4.4, steps 1 to
    4) at clock reading [now]; [location_sync.py] is missing from the
    tree. *)
Definition sync_cycle
    (upsert : Durable -> string * Position -> option Durable)
    (now : R) (store : gmap string Position)
    (st : SyncCheckpoint * Durable) : Progress :=
  let snapshot := list_all store in
  let '(c, db, attempted) :=
    fold_left (sync_record upsert) snapshot (fst st, snd st, []) in
  (mkCheckpoint (S (total_sync_cycles c)) (successful_upserts c)
                (failed_upserts c) (Some now),
   db, attempted).

End SyncCycle.

End Tracking.

(** ** Further concrete scenarios *)

(** A unit parked on [plaza], reported once at clock reading 0. *)
Definition parked_on_plaza : Tracking.Position :=
  Tracking.mkPosition (33749 / 1000) (-84388 / 1000) 0 0 0.

(** A store of two units, and a durable store that is down for unit U1
    only. *)
Definition two_units : gmap string Tracking.Position :=
  <["U1" := parked_on_plaza]> {["U2" := parked_on_plaza]}.

Definition refuses_U1 (db : unit) (rec : string * Tracking.Position)
  : option unit :=
  if String.eqb (fst rec) "U1" then None else Some tt.

(** A patrol officer stationed on [plaza]. *)
Definition officer_U1 : PoliceOfficer :=
  mkOfficer "U1" "Unit 1" "patrol" plaza (Some 90) None.

(** * Further code of [EmbeddedMap.tsx] and of the map page *)

(** ** Well-formed [officerData] *)

(** Every entry of the map has its waypoint index inside its route. *)
Definition store_ok (st : gmap string OfficerData) : Prop :=
  forall k d, st !! k = Some d -> index_ok d.

(** The entry after the arrivals at the clock readings and draws of [ts],
    one after the other. *)
Definition arrivals (ts : list (R * R)) (d : OfficerData) : OfficerData :=
  fold_left (fun d0 t => arrive (fst t) (snd t) d0) ts d.

(** ** [fetchRouteToIncident] *)

(** One entry of [data.routes] as [fetchRouteToIncident] reads it:
    [route.distance] and [route.duration] may be [undefined]. *)
Record IncidentRouteJson : Type := mkIncidentRoute {
  rj_distance : option R;
  rj_duration : option R;
  rj_geometry : RouteJson
}.

Inductive IncidentOutcome : Type :=
| IncidentRejected
| IncidentBody (routes : option (list IncidentRouteJson)).

(** [interface RouteInfo]; [None] in a field is [undefined]. *)
Record RouteInfo : Type := mkRouteInfo {
  ri_distance : option R;
  ri_duration : option R;
  ri_geometry : option (list point)
}.

(** [fetchRouteToIncident]: [None] is the resolved value [null]; no path
    rejects. *)
Definition fetchRouteToIncident
    (token : option string) (fetch : DirectionsRequest -> IncidentOutcome)
    (officerLocation incidentLocation : point) : option RouteInfo :=
  match token with
  | None => None
  | Some EmptyString => None
  | Some tok =>
      match fetch (mkRequest [officerLocation; incidentLocation] tok) with
      | IncidentRejected => None                   (* caught, logged *)
      | IncidentBody None => None
      | IncidentBody (Some []) => None
      | IncidentBody (Some (route :: _)) =>
          match rj_geometry route with
          | NoGeometry => None                     (* TypeError, caught *)
          | Geometry cs =>
              Some (mkRouteInfo (rj_distance route) (rj_duration route) cs)
          end
      end
  end.

(** The body [fetchPatrolRoute] would see in the same answer: it reads
    the geometry only. *)
Definition patrolView (out : IncidentOutcome) : FetchOutcome :=
  match out with
  | IncidentRejected => Rejected
  | IncidentBody rs => Body (option_map (map rj_geometry) rs)
  end.

(** ** [animateRoute]: the cinematic reveal of [addRouteToMap] *)

Definition animationDuration : R := 5000.
Definition lerpFactor : R := 4 / 10.               (* 0.4 *)

(** "Apply LERP for smooth camera movement": the first frame takes the
    target, later frames move [lerpFactor] of the way to it. *)
Definition followCamera (cameraPosition : option point)
    (targetPosition : point) : point :=
  match cameraPosition with
  | None => targetPosition
  | Some c =>
      (fst c + (fst targetPosition - fst c) * lerpFactor,
       snd c + (snd targetPosition - snd c) * lerpFactor)
  end.

(** What one frame of [animateRoute] hands to the map. *)
Record RouteFrame : Type := mkRouteFrame {
  rf_gradientStop : R;          (* the [line-gradient] step of both layers *)
  rf_distanceAlongRoute : R;
  rf_center : point;            (* [cameraPosition] after the frame *)
  rf_bearing : R;
  rf_again : bool               (* [requestAnimationFrame(animateRoute)] *)
}.

(** One frame of [animateRoute].  [along] is [turf.along(routeLine, _)]
    and [routeDistance] is [turf.length(routeLine)]. *)
Definition animateRoute (along : R -> point) (routeDistance : R)
    (startTime now : R) (cameraPosition : option point) : RouteFrame :=
  let elapsed := now - startTime in
  let linearProgress := Js.min (elapsed / animationDuration) 1 in
  let progress := easeInOutCubic linearProgress in
  let distanceAlongRoute := progress * routeDistance in
  let targetPosition := along distanceAlongRoute in
  mkRouteFrame progress distanceAlongRoute
               (followCamera cameraPosition targetPosition)
               (progress * 30)
               (if Rlt_dec linearProgress 1 then true else false).

(** ** [animatePulse]: the incident marker *)

(** The two variables the closure [animatePulse] updates. *)
Record Pulse : Type := mkPulse {
  radiusScale : R;
  growing : bool
}.

(** The state update of one frame of [animatePulse]. *)
Definition animatePulse (p : Pulse) : Pulse :=
  if growing p then
    let r := radiusScale p + 2 / 100 in
    mkPulse r (if Rle_dec (3 / 2) r then false else true)
  else
    let r := radiusScale p - 2 / 100 in
    mkPulse r (if Rle_dec r 1 then true else growing p).

(** [(0.3 * (1.5 - radiusScale)) / 0.5], from the updated scale. *)
Definition pulseOpacity (p : Pulse) : R :=
  (3 / 10 * (3 / 2 - radiusScale p)) / (1 / 2).

(** The three [circle-radius] stops, [5 * radiusScale], [25 *
    radiusScale], [80 * radiusScale]. *)
Definition pulseRadii (p : Pulse) : list R :=
  [5 * radiusScale p; 25 * radiusScale p; 80 * radiusScale p].

(** The bounds the pulse keeps, written so that they do not depend on the
    scale meeting 1.5 and 1 exactly. *)
Definition pulse_ok (p : Pulse) : Prop :=
  if growing p
  then 98 / 100 <= radiusScale p < 3 / 2
  else 1 < radiusScale p <= 152 / 100.

(** ** The label layer under which the 3D buildings go *)

(** A layer of [map.getStyle().layers]: its id, its [type], and its
    [layout] ([None] when absent) reduced to the truthiness of
    [layout["text-field"]]. *)
Record StyleLayer : Type := mkLayer {
  layer_id : string;
  layer_type : string;
  layer_layout : option bool
}.

(** The body of the [for] loop, on the layers from the last to the first.
    The outer [None] is the [TypeError] of reading ["text-field"] of an
    absent layout. *)
Fixpoint scanLabelLayer (fromLast : list StyleLayer) : option string :=
  match fromLast with
  | [] => Some EmptyString
  | l :: rest =>
      if String.eqb (layer_type l) "symbol" then
        match layer_layout l with
        | None => None
        | Some true => Some (layer_id l)
        | Some false => scanLabelLayer rest
        end
      else scanLabelLayer rest
  end.

(** [labelLayerId] after the loop [for (let i = layers.length - 1; i >= 0;
    i--)]. *)
Definition labelLayerId (layers : list StyleLayer) : option string :=
  scanLabelLayer (rev layers).

(** The test of the loop. *)
Definition isLabelLayer (l : StyleLayer) : Prop :=
  layer_type l = "symbol" /\ layer_layout l = Some true.

(** ** Tilt and rotation controls of the map page *)

(** [Math.max(a, b)]. *)
Definition Math_max (a b : R) : R := Rmax a b.

(** The pitch and bearing of the map camera, as [getPitch], [setPitch],
    [getBearing] and [setBearing] read and write them. *)
Record MapCamera : Type := mkCamera {
  cam_pitch : R;
  cam_bearing : R
}.

Inductive Key : Type :=
| ArrowUp
| ArrowDown
| ArrowLeft
| ArrowRight
| OtherKey.

(** [handleKeyDown]; the "Tilt Up" and "Tilt Down" buttons do what
    [ArrowUp] and [ArrowDown] do. *)
Definition handleKeyDown (k : Key) (c : MapCamera) : MapCamera :=
  match k with
  | ArrowUp => mkCamera (Js.min (cam_pitch c + 5) 85) (cam_bearing c)
  | ArrowDown => mkCamera (Math_max (cam_pitch c - 5) 0) (cam_bearing c)
  | ArrowLeft => mkCamera (cam_pitch c) (cam_bearing c - 10)
  | ArrowRight => mkCamera (cam_pitch c) (cam_bearing c + 10)
  | OtherKey => c
  end.

(** [handleMouseMove] of a Shift-drag begun at [startY] with pitch
    [startPitch]: the pitch it sets when the pointer is at [clientY]. *)
Definition dragPitch (startY startPitch clientY : R) : R :=
  let deltaY := clientY - startY in
  let pitchChange := - deltaY / 10 in
  Math_max 0 (Js.min 85 (startPitch + pitchChange)).

(** ** The dispatch page: officers and calls *)

(** The updater of [setPoliceOfficers] in [handleDispatchOfficer] ([b] is
    [true]) and in [handleEndDispatch] ([b] is [false]):
    [prev.map((o) => o.id === officer.id ? { ...o, dispatched: b } : o)]. *)
Definition setDispatched (b : bool) (id : string)
    (officers : list PoliceOfficer) : list PoliceOfficer :=
  (fun o => if String.eqb (o_id o) id
            then mkOfficer (o_id o) (o_name o) (o_role o) (o_location o)
                           (o_heading o) (Some b)
            else o) <$> officers.

(** What the dispatch flag of an officer does to a feature. *)
Definition flagged (b : bool) (id : string) (f : Feature) : Feature :=
  if String.eqb (f_id f) id
  then mkFeature (f_id f) (f_name f) (f_role f) (f_heading f) b
                 (f_coordinates f)
  else f.

(** [interface Call]. *)
Record Call : Type := mkCall {
  call_id : string;
  call_name : string;
  call_role : string;
  call_duration : string;
  isMuted : bool;
  isActive : bool
}.

(** [toggleMute]: [prevCalls.map((call) => call.id === callId ? {
    ...call, isMuted: !call.isMuted } : call)]. *)
Definition toggleMute (callId : string) (calls : list Call) : list Call :=
  (fun c => if String.eqb (call_id c) callId
            then mkCall (call_id c) (call_name c) (call_role c)
                        (call_duration c) (negb (isMuted c)) (isActive c)
            else c) <$> calls.

(** [toggleCallSelection] and [toggleCallExpansion]: a copy of the set
    with [callId] deleted when it was there, added when it was not. *)
Definition toggleCallSelection (callId : string) (prev : gset string)
  : gset string :=
  if decide (callId ∈ prev) then prev ∖ {[callId]} else prev ∪ {[callId]}.

(** ** Clocks *)

(** The clock readings of the frames [ticks] never go back, and none is
    before [t0]. *)
Fixpoint clock_never_back (t0 : R) (ticks : list (R * R)) : Prop :=
  match ticks with
  | [] => True
  | t :: rest => t0 <= fst t /\ clock_never_back (fst t) rest
  end.




(** A unit on the last leg of [loop], 0.000006 degrees from its end. *)
Definition approaching : OfficerData :=
  mkData (-84388 / 1000, 33748994 / 1000000) loop 2 90 None (3 / 5) 0.

(** A second patrol officer, stationed on [south_of_plaza]. *)
Definition officer_U2 : PoliceOfficer :=
  mkOfficer "U2" "Unit 2" "patrol" south_of_plaza (Some 180) None.

(** ** Concrete inputs for the further code *)

(** A unit on the last leg of [loop], within [epsilon] of its end. *)
Definition nearly_there : OfficerData :=
  mkData short_of_plaza loop 2 90 None (3 / 5) 0.

(** [officerData] with two entries: U1 about to arrive at the end of
    [loop], U2 on its way south. *)
Definition two_officers : gmap string OfficerData :=
  <["U1" := nearly_there]> (<["U2" := heading_south]> ∅).

(** A style with one label layer between two fill layers. *)
Definition sample_style : list StyleLayer :=
  [mkLayer "water" "fill" None;
   mkLayer "road-label" "symbol" (Some true);
   mkLayer "building" "fill" (Some false)].

(** * Properties *)

(** ** Numeric primitives *)

Lemma min_le_r (a b : R) : Js.min a b <= b.
Proof. apply Rmin_r. Qed.

Lemma min_le_l (a b : R) : Js.min a b <= a.
Proof. apply Rmin_l. Qed.


Lemma min_nonneg (a b : R) : 0 <= a -> 0 <= b -> 0 <= Js.min a b.
Proof. intros Ha Hb. apply Rmin_glb; assumption. Qed.

Lemma atan_neg (z : R) : z < 0 -> atan z < 0.
Proof. intros Hz. rewrite <- atan_0. apply atan_increasing, Hz. Qed.

Lemma atan_pos (z : R) : 0 < z -> 0 < atan z.
Proof. intros Hz. rewrite <- atan_0. apply atan_increasing, Hz. Qed.

Lemma div_neg_pos (y x : R) : x < 0 -> 0 < y -> y / x < 0.
Proof.
  intros Hx Hy. unfold Rdiv.
  assert (/ x < 0) by (apply Rinv_lt_0_compat, Hx).
  nra.
Qed.

Lemma div_neg_neg (y x : R) : x < 0 -> y < 0 -> 0 < y / x.
Proof.
  intros Hx Hy. unfold Rdiv.
  assert (/ x < 0) by (apply Rinv_lt_0_compat, Hx).
  nra.
Qed.

(** [Math.atan2] ranges over (-PI, PI]. *)
Lemma atan2_range (y x : R) : - PI < Js.atan2 y x <= PI.
Proof.
  pose proof PI_RGT_0 as HPI.
  unfold Js.atan2.
  destruct (Rlt_dec 0 x) as [Hx | Hx].
  - pose proof (atan_bound (y / x)). lra.
  - destruct (Rlt_dec x 0) as [Hx' | Hx'].
    + destruct (Rle_dec 0 y) as [Hy | Hy].
      * pose proof (atan_bound (y / x)) as Hb.
        destruct Hy as [Hy | <-].
        -- pose proof (atan_neg _ (div_neg_pos y x Hx' Hy)). lra.
        -- unfold Rdiv. rewrite Rmult_0_l, atan_0. lra.
      * pose proof (atan_bound (y / x)) as Hb.
        assert (Hy' : y < 0) by lra.
        pose proof (atan_pos _ (div_neg_neg y x Hx' Hy')). lra.
    + destruct (Rlt_dec 0 y); [lra |].
      destruct (Rlt_dec y 0); lra.
Qed.

(** The angle straight down the second axis. *)
Lemma atan2_south (y : R) : y < 0 -> Js.atan2 y 0 = - (PI / 2).
Proof.
  intros Hy. unfold Js.atan2.
  destruct (Rlt_dec 0 0); [lra |].
  destruct (Rlt_dec 0 y); [lra |].
  destruct (Rlt_dec y 0); [reflexivity | lra].
Qed.

Lemma atan2_0_pos (x : R) : 0 < x -> Js.atan2 0 x = 0.
Proof.
  intros Hx. unfold Js.atan2.
  destruct (Rlt_dec 0 x); [| contradiction].
  unfold Rdiv. rewrite Rmult_0_l. apply atan_0.
Qed.





(** ** [easeInOutCubic] *)

Lemma ease_lo (t : R) : t < 1 / 2 -> easeInOutCubic t = 4 * t * t * t.
Proof.
  intros Ht. unfold easeInOutCubic.
  destruct (Rlt_dec t (1 / 2)); [reflexivity | contradiction].
Qed.

Lemma ease_hi (t : R) :
  1 / 2 <= t -> easeInOutCubic t = 1 - (-2 * t + 2) ^ 3 / 2.
Proof.
  intros Ht. unfold easeInOutCubic, Js.pow3.
  destruct (Rlt_dec t (1 / 2)); [lra | reflexivity].
Qed.

Lemma ease_range (t : R) : 0 <= t <= 1 -> 0 <= easeInOutCubic t <= 1.
Proof.
  intros [H0 H1].
  destruct (Rlt_dec t (1 / 2)) as [Hlt | Hge].
  - rewrite ease_lo by assumption.
    assert (0 <= t * t) by nra.
    assert (t * t <= 1 / 4) by nra.
    split; nra.
  - rewrite ease_hi by lra.
    set (u := -2 * t + 2).
    assert (Hu : 0 <= u <= 1) by (unfold u; lra).
    assert (0 <= u * u <= 1) by nra.
    assert (0 <= u ^ 3 <= 1) by (simpl; nra).
    lra.
Qed.

Lemma cube_mono (a b : R) : 0 <= a -> a <= b -> a ^ 3 <= b ^ 3.
Proof.
  intros Ha Hab. simpl.
  assert (a * a <= b * b) by nra.
  assert (0 <= a * a) by nra.
  nra.
Qed.

Lemma ease_mono (s t : R) :
  0 <= s -> s <= t -> t <= 1 -> easeInOutCubic s <= easeInOutCubic t.
Proof.
  intros Hs Hst Ht.
  destruct (Rlt_dec t (1 / 2)) as [Ht2 | Ht2].
  - rewrite !ease_lo by lra.
    pose proof (cube_mono s t Hs Hst) as Hc. simpl in Hc. lra.
  - destruct (Rlt_dec s (1 / 2)) as [Hs2 | Hs2].
    + rewrite (ease_lo s) by assumption. rewrite (ease_hi t) by lra.
      assert (Hc1 : s ^ 3 <= (1 / 2) ^ 3) by (apply cube_mono; lra).
      assert (Hc2 : (-2 * t + 2) ^ 3 <= 1 ^ 3) by (apply cube_mono; lra).
      simpl in Hc1, Hc2. simpl. lra.
    + rewrite !ease_hi by lra.
      assert (Hc : (-2 * t + 2) ^ 3 <= (-2 * s + 2) ^ 3)
        by (apply cube_mono; lra).
      lra.
Qed.

Lemma ease_symm (t : R) : easeInOutCubic t + easeInOutCubic (1 - t) = 1.
Proof.
  destruct (Rlt_dec t (1 / 2)) as [Ht | Ht].
  - rewrite (ease_lo t) by assumption. rewrite (ease_hi (1 - t)) by lra.
    simpl. field.
  - destruct (Req_dec_T t (1 / 2)) as [-> | Hne].
    + replace (1 - 1 / 2) with (1 / 2) by field.
      rewrite ease_hi by lra. simpl. field.
    + rewrite (ease_hi t) by lra. rewrite (ease_lo (1 - t)) by lra.
      simpl. field.
Qed.

Lemma ease_fixed_points :
  easeInOutCubic 0 = 0 /\ easeInOutCubic 1 = 1 /\
  easeInOutCubic (1 / 2) = 1 / 2.
Proof.
  repeat split.
  - rewrite ease_lo by lra. ring.
  - rewrite ease_hi by lra. simpl. field.
  - rewrite ease_hi by lra. simpl. field.
Qed.

(** C10. [easeInOutCubic] maps 0 to 0, 1 to 1 and 1/2 to 1/2, is
    nondecreasing on [0,1], and is point-symmetric about the midpoint:
    [ease t + ease (1 - t) = 1] for every [t] of [0,1]. *)
Theorem easeInOutCubic_shape :
  easeInOutCubic 0 = 0 /\
  easeInOutCubic 1 = 1 /\
  easeInOutCubic (1 / 2) = 1 / 2 /\
  (forall s t, 0 <= s -> s <= t -> t <= 1 ->
     easeInOutCubic s <= easeInOutCubic t) /\
  (forall t, 0 <= t <= 1 -> easeInOutCubic t + easeInOutCubic (1 - t) = 1).
Proof.
  repeat split.
  - rewrite ease_lo by lra. ring.
  - rewrite ease_hi by lra. simpl. field.
  - rewrite ease_hi by lra. simpl. field.
  - exact ease_mono.
  - intros t _. apply ease_symm.
Qed.

(** ** The speed profile *)

Lemma progress_range (now : R) (d : OfficerData) :
  segmentStartTime d <= now -> 0 <= progressAt now d <= 1.
Proof.
  intros Hclock. unfold progressAt, estimatedDuration. split.
  - apply min_nonneg; [| lra].
    apply Rmult_le_pos; [lra |]. apply Rlt_le, Rinv_0_lt_compat. lra.
  - apply min_le_r.
Qed.

Lemma multiplier_range (p : R) : 0 <= p <= 1 -> 1 <= speedMultiplier p <= 3.
Proof.
  intros Hp. unfold speedMultiplier.
  pose proof (ease_range p Hp) as [He0 He1].
  pose proof PI_RGT_0 as HPI.
  assert (Hs0 : 0 <= sin (easeInOutCubic p * PI)) by (apply sin_ge_0; nra).
  pose proof (SIN_bound (easeInOutCubic p * PI)) as [_ Hs1].
  lra.
Qed.


(** ** Geometry of one step *)


Lemma sqrt_scaled (k dx dy : R) : 0 <= k ->
  sqrt (k * dx * (k * dx) + k * dy * (k * dy)) = k * sqrt (dx * dx + dy * dy).
Proof.
  intros Hk.
  replace (k * dx * (k * dx) + k * dy * (k * dy))
    with ((k * k) * (dx * dx + dy * dy)) by ring.
  rewrite sqrt_mult; [| nra | nra].
  rewrite sqrt_square by assumption. reflexivity.
Qed.

Lemma dist_along_from (p q : point) (k : R) : 0 <= k ->
  dist p (along p q k) = k * dist p q.
Proof.
  intros Hk. unfold dist, along. cbn [fst snd].
  rewrite <- sqrt_scaled by assumption. f_equal. ring.
Qed.

Lemma dist_along_to (p q : point) (k : R) : k <= 1 ->
  dist (along p q k) q = (1 - k) * dist p q.
Proof.
  intros Hk. unfold dist, along. cbn [fst snd].
  rewrite <- sqrt_scaled by lra. f_equal. ring.
Qed.

Lemma dist_gt (p q : point) (e : R) :
  0 <= e ->
  e * e < (fst q - fst p) * (fst q - fst p) + (snd q - snd p) * (snd q - snd p) ->
  e < dist p q.
Proof.
  intros He Hlt. unfold dist. cbn zeta.
  rewrite <- (sqrt_square e) at 1 by assumption.
  apply sqrt_lt_1; nra.
Qed.

Lemma dist_le (p q : point) (e : R) :
  0 <= e ->
  (fst q - fst p) * (fst q - fst p) + (snd q - snd p) * (snd q - snd p)
    <= e * e ->
  dist p q <= e.
Proof.
  intros He Hle. unfold dist. cbn zeta.
  rewrite <- (sqrt_square e) by assumption.
  pose proof (Rle_0_sqr (fst q - fst p)) as Hx.
  pose proof (Rle_0_sqr (snd q - snd p)) as Hy.
  unfold Rsqr in Hx, Hy.
  apply sqrt_le_1; nra.
Qed.

Lemma epsilon_pos : 0 < epsilon.
Proof. unfold epsilon. lra. Qed.

Lemma baseSpeed_pos : 0 < baseSpeed.
Proof. unfold baseSpeed. lra. Qed.

Lemma advance_current (now : R) (t : point) (d : OfficerData) :
  current (advance now t d) = along (current d) t (ratioAt now t d).
Proof. reflexivity. Qed.



(** Whatever the clock says, the adjusted speed is between [- baseSpeed]
    and [3 * baseSpeed]. *)
Lemma adjusted_speed_bounds (p : R) :
  - baseSpeed <= baseSpeed * speedMultiplier p <= 3 * baseSpeed.
Proof.
  unfold speedMultiplier.
  pose proof (SIN_bound (easeInOutCubic p * PI)) as [Hlo Hhi].
  pose proof baseSpeed_pos. split; nra.
Qed.

Lemma max_step_below_epsilon : 3 * baseSpeed < epsilon.
Proof. unfold baseSpeed, epsilon. lra. Qed.

(** Far from the waypoint the cap of the interpolation factor is idle. *)
Lemma ratio_uncapped (now : R) (t : point) (d : OfficerData) :
  epsilon < dist (current d) t ->
  ratioAt now t d
    = baseSpeed * speedMultiplier (progressAt now d) / dist (current d) t /\
  ratioAt now t d < 1.
Proof.
  intros Hfar.
  pose proof (adjusted_speed_bounds (progressAt now d)) as [_ Hhi].
  pose proof max_step_below_epsilon as Hgap.
  pose proof epsilon_pos as He.
  set (a := baseSpeed * speedMultiplier (progressAt now d)) in *.
  set (D := dist (current d) t) in *.
  assert (Hlt : a / D < 1).
  { apply Rmult_lt_reg_r with D; [lra |].
    replace (a / D * D) with a by (field; lra). lra. }
  unfold ratioAt. fold a D. unfold Js.min.
  rewrite Rmin_left by lra. split; [reflexivity | exact Hlt].
Qed.

(** ** The entry stays well formed *)

Lemma nextIndex_lt (d : OfficerData) :
  route d <> [] -> (nextIndex d < length (route d))%nat.
Proof.
  intros Hne. unfold nextIndex.
  destruct (route d) as [| w ws]; [congruence |].
  destruct (Nat.leb_spec (length (w :: ws)) (S (routeIndex d))); cbn in *; lia.
Qed.

Lemma nextIndex_mod (d : OfficerData) :
  (routeIndex d < length (route d))%nat ->
  nextIndex d = (S (routeIndex d) mod length (route d))%nat.
Proof.
  intros Hlt. unfold nextIndex.
  destruct (Nat.leb_spec (length (route d)) (S (routeIndex d))) as [Hle | Hgt].
  - assert (Heq : S (routeIndex d) = length (route d)) by lia.
    rewrite Heq. symmetry. apply Nat.Div0.mod_same.
  - symmetry. apply Nat.mod_small. exact Hgt.
Qed.

Lemma waitGate_frame (now : R) (d d0 : OfficerData) :
  waitGate now d = Some d0 ->
  current d0 = current d /\ route d0 = route d /\
  routeIndex d0 = routeIndex d /\ heading d0 = heading d.
Proof.
  unfold waitGate. intros H.
  destruct (waitingUntil d) as [w |].
  - destruct (Rlt_dec now w); [discriminate |].
    injection H as <-. auto.
  - injection H as <-. auto.
Qed.

Lemma waitGate_clock (now : R) (d d0 : OfficerData) :
  segmentStartTime d <= now -> waitGate now d = Some d0 ->
  segmentStartTime d0 <= now /\ waitingUntil d0 = None.
Proof.
  unfold waitGate. intros Hclock H.
  destruct (waitingUntil d) as [w |] eqn:Hw.
  - destruct (Rlt_dec now w); [discriminate |].
    injection H as <-. cbn. split; [lra | reflexivity].
  - injection H as <-. auto.
Qed.

(** A frame never throws on a well-formed entry, and leaves it well
    formed. *)
Lemma step_total (now rnd : R) (d : OfficerData) :
  index_ok d -> exists d', step now rnd d = Some d' /\ index_ok d' /\
                           route d' = route d.
Proof.
  intros Hok. unfold step.
  destruct (route d) as [| w ws] eqn:Hr.
  - exists d. split; [reflexivity |]. split; [left |]; exact Hr.
  - destruct Hok as [Hok | Hok]; [congruence |].
    destruct (waitGate now d) as [d0 |] eqn:Hg.
    + destruct (waitGate_frame _ _ _ Hg) as (Hc & Hr0 & Hi & Hh).
      unfold moveAlong.
      destruct (lookup_lt_is_Some_2 (route d0) (routeIndex d0)) as [t Ht].
      { rewrite Hr0, Hi. exact Hok. }
      rewrite Ht.
      destruct (Rlt_dec epsilon (dist (current d0) t)).
      * eexists. split; [reflexivity |]. unfold index_ok. cbn.
        rewrite Hr0, Hi, Hr. split; [| reflexivity].
        right. rewrite Hr in Hok. exact Hok.
      * eexists. split; [reflexivity |]. unfold index_ok. cbn.
        rewrite Hr0, Hr. split; [| reflexivity]. right.
        pose proof (nextIndex_lt d0) as Hn. rewrite Hr0, Hr in Hn.
        apply Hn. discriminate.
    + exists d. split; [reflexivity |]. split; [| exact Hr].
      right. exact Hok.
Qed.

(** The segment never starts in the future: the clock hypothesis of the
    moving frames is kept by every frame. *)
Lemma step_clock (now rnd : R) (d d' : OfficerData) :
  segmentStartTime d <= now -> step now rnd d = Some d' ->
  segmentStartTime d' <= now.
Proof.
  intros Hclock. unfold step.
  destruct (route d); [intros [= <-]; exact Hclock |].
  destruct (waitGate now d) as [d0 |] eqn:Hg;
    [| intros [= <-]; exact Hclock].
  destruct (waitGate_clock _ _ _ Hclock Hg) as [Hclock0 _].
  unfold moveAlong. destruct (route d0 !! routeIndex d0); [| discriminate].
  destruct (Rlt_dec epsilon _); intros [= <-]; exact Hclock0.
Qed.

(** A frame that completes emits one feature per officer. *)
Lemma animateOfficers_length (now : R) (officers : list (PoliceOfficer * R))
    (st st' : gmap string OfficerData) (fs : list Feature) :
  animateOfficers now officers st = Some (fs, st') ->
  length fs = length officers.
Proof.
  revert st fs. induction officers as [| [o rnd] rest IH]; intros st fs.
  - intros [= <- _]. reflexivity.
  - cbn [animateOfficers].
    destruct (animateOfficer now rnd o (st !! o_id o)) as [[f data'] |];
      [| discriminate].
    destruct (animateOfficers now rest _) as [[fs' st''] |] eqn:Hrest;
      [| discriminate].
    intros [= <- <-]. cbn. f_equal. eapply IH, Hrest.
Qed.

(** ** Moving frames *)

(** A unit that is not held by a wait and is farther than [epsilon] from
    its active waypoint takes the "still moving" branch. *)
Lemma step_moving (now rnd : R) (d d0 : OfficerData) (target : point) :
  waitGate now d = Some d0 ->
  route d0 !! routeIndex d0 = Some target ->
  epsilon < dist (current d0) target ->
  step now rnd d = Some (advance now target d0).
Proof.
  intros Hg Ht Hfar.
  destruct (waitGate_frame _ _ _ Hg) as (_ & Hr & _ & _).
  unfold step. destruct (route d) as [| w ws] eqn:Hrd.
  - rewrite Hr in Ht. rewrite lookup_nil in Ht. discriminate.
  - rewrite Hg. unfold moveAlong. rewrite Ht.
    destruct (Rlt_dec epsilon (dist (current d0) target)); [reflexivity |].
    contradiction.
Qed.

(** A unit that is not held by a wait and is within [epsilon] of its
    active waypoint takes the "reached waypoint" branch. *)
Lemma step_arriving (now rnd : R) (d d0 : OfficerData) (target : point) :
  waitGate now d = Some d0 ->
  route d0 !! routeIndex d0 = Some target ->
  dist (current d0) target <= epsilon ->
  step now rnd d = Some (arrive now rnd d0).
Proof.
  intros Hg Ht Hnear.
  destruct (waitGate_frame _ _ _ Hg) as (_ & Hr & _ & _).
  unfold step. destruct (route d) as [| w ws] eqn:Hrd.
  - rewrite Hr in Ht. rewrite lookup_nil in Ht. discriminate.
  - rewrite Hg. unfold moveAlong. rewrite Ht.
    destruct (Rlt_dec epsilon (dist (current d0) target)); [lra |].
    reflexivity.
Qed.

(** The heading written by [advance] lies in (-180, 180]. *)
Lemma headingTo_range (dx dy : R) : -180 < headingTo dx dy <= 180.
Proof.
  unfold headingTo. pose proof PI_RGT_0 as HPI.
  pose proof (atan2_range dy dx) as [Hlo Hhi].
  split.
  - apply Rmult_lt_reg_r with PI; [assumption |].
    replace (Js.atan2 dy dx * 180 / PI * PI) with (Js.atan2 dy dx * 180)
      by (field; lra).
    lra.
  - apply Rmult_le_reg_r with PI; [assumption |].
    replace (Js.atan2 dy dx * 180 / PI * PI) with (Js.atan2 dy dx * 180)
      by (field; lra).
    lra.
Qed.




(** ** Moving frames under a clock that was set back *)



















(** Under a clock that never goes back the condition of the amended C2
    and C9 holds in every frame of a run. *)
Lemma run_keeps_clock (o : PoliceOfficer) (pre : list (R * R)) (t : R * R)
    (t0 : R) (d d1 : OfficerData) (fs : list Feature) :
  segmentStartTime d <= t0 ->
  clock_never_back t0 (pre ++ [t]) ->
  run o pre d = Some (fs, d1) ->
  segmentStartTime d1 <= fst t.
Proof.
  revert t0 d fs. induction pre as [| [now rnd] rest IH];
    intros t0 d fs Hstart Hclock.
  - intros [= _ <-]. cbn in Hclock. lra.
  - cbn [run]. destruct (step now rnd d) as [d2 |] eqn:Hs; [| discriminate].
    destruct (run o rest d2) as [[fs2 d3] |] eqn:Hrest; [| discriminate].
    intros [= _ <-]. destruct Hclock as [Hnow Hclock]. cbn [fst] in *.
    eapply (IH now d2); [| exact Hclock | exact Hrest].
    eapply step_clock; [| exact Hs]. lra.
Qed.

(** ** Arrival at a waypoint *)

(** C4. A unit that is not held by a wait and is within [epsilon] of its
    active waypoint starts a dwell of at least 2 s and less than 3 s, and
    its waypoint index moves on by one, back to 0 past the last
    waypoint. *)
Theorem arrival_starts_dwell_and_advances_index
    (now rnd : R) (d d0 : OfficerData) (target : point) :
  0 <= rnd < 1 ->
  waitGate now d = Some d0 ->
  route d0 !! routeIndex d0 = Some target ->
  dist (current d0) target <= epsilon ->
  exists (d' : OfficerData) (deadline : R),
    step now rnd d = Some d' /\
    waitingUntil d' = Some deadline /\
    2000 <= deadline - now < 3000 /\
    routeIndex d' = (S (routeIndex d) mod length (route d))%nat /\
    (S (routeIndex d) = length (route d) -> routeIndex d' = 0%nat) /\
    (S (routeIndex d) < length (route d) ->
       routeIndex d' = S (routeIndex d))%nat /\
    route d' = route d /\
    current d' = current d /\
    heading d' = heading d.
Proof.
  intros Hrnd Hg Ht Hnear.
  destruct (waitGate_frame _ _ _ Hg) as (Hc & Hr & Hi & Hh).
  pose proof (lookup_lt_Some _ _ _ Ht) as Hlt.
  assert (Hmod : nextIndex d0
                 = (S (routeIndex d) mod length (route d))%nat)
    by (rewrite <- Hr, <- Hi; apply nextIndex_mod, Hlt).
  exists (arrive now rnd d0), (now + 2000 + rnd * 1000).
  split; [eapply step_arriving; eassumption |].
  split; [reflexivity |].
  split; [lra |].
  split; [exact Hmod |].
  split.
  { intros Hlast. cbn. rewrite Hmod, Hlast. apply Nat.Div0.mod_same. }
  split.
  { intros Hin. cbn. rewrite Hmod. apply Nat.mod_small, Hin. }
  cbn. auto.
Qed.

(** ** Waiting frames *)

Lemma emit_with_route (o : PoliceOfficer) (d d' : OfficerData) :
  route d <> [] -> emit o (Some d) d' = feature o (heading d') (current d').
Proof.
  intros Hne. unfold emit. destruct (route d); [congruence | reflexivity].
Qed.

(** C3, as amended.  While the deadline of a wait lies ahead, a frame
    leaves the unit's entry untouched and emits its stored position and
    heading.  In the first frame at or after the deadline the expired wait
    is cleared and the segment progress and start time are reset, and the
    frame goes on as a moving frame from the cleared entry: the unit ends
    the frame moving, no wait pending, when the active waypoint is farther
    than [epsilon]; when it is within [epsilon] a new dwell starts at
    once. *)
Theorem waiting_tick_holds_then_resumes
    (now rnd deadline : R) (o : PoliceOfficer) (d : OfficerData)
    (target : point) :
  waitingUntil d = Some deadline ->
  route d !! routeIndex d = Some target ->
  (now < deadline ->
     step now rnd d = Some d /\
     f_coordinates (emit o (Some d) d) = current d /\
     f_heading (emit o (Some d) d) = heading d) /\
  (deadline <= now ->
     waitGate now d = Some (clearWait now d) /\
     exists d' : OfficerData,
       step now rnd d = Some d' /\
       segmentProgress d' = 0 /\
       segmentStartTime d' = now /\
       (epsilon < dist (current d) target ->
          d' = advance now target (clearWait now d) /\
          waitingUntil d' = None) /\
       (dist (current d) target <= epsilon ->
          d' = arrive now rnd (clearWait now d) /\
          waitingUntil d' = Some (now + 2000 + rnd * 1000))).
Proof.
  intros Hw Ht.
  assert (Hne : route d <> []).
  { intros Hnil. rewrite Hnil, lookup_nil in Ht. discriminate. }
  split.
  - intros Hbefore. split.
    + unfold step, waitGate. destruct (route d); [congruence |].
      rewrite Hw. destruct (Rlt_dec now deadline); [reflexivity | lra].
    + rewrite emit_with_route by assumption. split; reflexivity.
  - intros Hafter.
    assert (Hg : waitGate now d = Some (clearWait now d)).
    { unfold waitGate. rewrite Hw.
      destruct (Rlt_dec now deadline); [lra | reflexivity]. }
    split; [exact Hg |].
    destruct (Rlt_dec epsilon (dist (current d) target)) as [Hfar | Hnear].
    + exists (advance now target (clearWait now d)).
      split; [apply (step_moving _ _ _ _ _ Hg Ht Hfar) |].
      split.
      { cbn. unfold progressAt, estimatedDuration. cbn.
        replace ((now - now) / 15000) with 0 by (field; lra).
        unfold Js.min. apply Rmin_left. lra. }
      split; [reflexivity |].
      split; [intros _; split; reflexivity | intros Hle; lra].
    + exists (arrive now rnd (clearWait now d)).
      assert (Hle : dist (current d) target <= epsilon) by lra.
      split; [apply (step_arriving _ _ _ _ _ Hg Ht Hle) |].
      split; [reflexivity |].
      split; [reflexivity |].
      split; [intros Hfar; lra | intros _; split; reflexivity].
Qed.

Lemma back_at_start_resumes :
  waitGate 11500 back_at_start = Some (clearWait 11500 back_at_start).
Proof.
  unfold waitGate. cbn. destruct (Rlt_dec 11500 11500); [lra | reflexivity].
Qed.

Lemma back_at_start_near :
  dist (current (clearWait 11500 back_at_start)) plaza <= epsilon.
Proof. apply dist_le; unfold epsilon; cbn; lra. Qed.

(** C3 as stated fails at a unit back at the start of its closed loop:
    the frame at the deadline clears the wait, finds the active waypoint
    within [epsilon], and starts the next dwell; the unit ends the frame
    waiting, where it stood. *)
Lemma deadline_tick_may_start_new_wait :
  waitingUntil back_at_start = Some 11500 /\
  step 11500 0 back_at_start
    = Some (mkData short_of_plaza loop 1 90 (Some 13500) 0 11500) /\
  ~ (forall (now rnd deadline : R) (d d' : OfficerData),
       waitingUntil d = Some deadline -> deadline <= now ->
       step now rnd d = Some d' -> waitingUntil d' = None).
Proof.
  assert (Hstep : step 11500 0 back_at_start
            = Some (mkData short_of_plaza loop 1 90 (Some 13500) 0 11500)).
  { rewrite (step_arriving 11500 0 _ _ plaza back_at_start_resumes eq_refl
               back_at_start_near).
    unfold arrive, nextIndex. cbn. do 2 f_equal. f_equal. lra. }
  split; [reflexivity |].
  split; [exact Hstep |].
  intros Hclaim.
  specialize (Hclaim 11500 0 11500 back_at_start _ eq_refl (Rle_refl _) Hstep).
  discriminate Hclaim.
Qed.

(** ** Headings *)

(** C1 at a unit that travels due south: officer U1 starts on [plaza] and
    is given the closed patrol [loop].  Its first frame finds it on the
    first waypoint and starts a dwell; the frame at the end of the dwell
    moves it towards [south_of_plaza], and the heading written with that
    position is -90, outside [0, 360). *)
Theorem southbound_heading_is_negative :
  exists (d0 d2 : OfficerData) (f1 f2 : Feature),
    installRoute "U1" (RouteCoords loop)
      (<["U1" := initOfficer 0 0 officer_U1]> ∅) !! "U1" = Some d0 /\
    run officer_U1 [(0, 0); (2000, 0)] d0 = Some ([f1; f2], d2) /\
    f_heading f2 = -90 /\
    heading d2 = -90 /\
    ~ (0 <= f_heading f2 < 360).
Proof.
  set (d0 := mkData plaza loop 0 90 None 0 0).
  set (d1 := mkData plaza loop 1 90 (Some 2000) 0 0).
  set (d1' := clearWait 2000 d1).
  assert (Hd : installRoute "U1" (RouteCoords loop)
                 (<["U1" := initOfficer 0 0 officer_U1]> ∅) !! "U1"
               = Some d0).
  { unfold installRoute. rewrite lookup_insert_eq.
    rewrite lookup_insert_eq. cbn. unfold initialHeading, Js.or_num. cbn.
    destruct (Req_dec_T 90 0); [lra | reflexivity]. }
  assert (H1 : step 0 0 d0 = Some d1).
  { rewrite (step_arriving 0 0 d0 d0 plaza eq_refl eq_refl).
    - unfold arrive, nextIndex, d1. cbn. do 2 f_equal. f_equal. lra.
    - apply dist_le; unfold epsilon; cbn; lra. }
  assert (Hg : waitGate 2000 d1 = Some d1').
  { unfold waitGate. cbn. destruct (Rlt_dec 2000 2000); [lra | reflexivity]. }
  assert (Hfar : epsilon < dist (current d1') south_of_plaza).
  { apply dist_gt; unfold epsilon; cbn; lra. }
  assert (H2 : step 2000 0 d1 = Some (advance 2000 south_of_plaza d1'))
    by exact (step_moving 2000 0 d1 d1' south_of_plaza Hg eq_refl Hfar).
  assert (Hh : heading (advance 2000 south_of_plaza d1') = -90).
  { cbn. unfold headingTo.
    replace (-84388 / 1000 - -84388 / 1000) with 0 by lra.
    rewrite atan2_south by lra.
    pose proof PI_RGT_0. field. lra. }
  exists d0, (advance 2000 south_of_plaza d1'), (emit officer_U1 (Some d0) d1),
         (emit officer_U1 (Some d1) (advance 2000 south_of_plaza d1')).
  split; [exact Hd |].
  split; [cbn [run]; rewrite H1, H2; reflexivity |].
  rewrite emit_with_route by discriminate. cbn [f_heading feature].
  rewrite Hh. repeat split. lra.
Qed.

(** ** Route synthesis *)

Lemma fetchPatrolRoute_unavailable
    (token : option string) (fetch : DirectionsRequest -> FetchOutcome)
    (r1 r2 : R) (start : point) :
  (falsy_token token = true \/
   exists tok, token = Some tok /\
     no_route (fetch (mkRequest (patrolWaypoints start r1 r2) tok)) = true) ->
  fetchPatrolRoute token fetch r1 r2 start = RouteNull.
Proof.
  intros [Hfalsy | (tok & -> & Hout)].
  - destruct token as [[| c s] |]; cbn in *; congruence.
  - unfold fetchPatrolRoute. destruct tok as [| c s]; [reflexivity |].
    destruct (fetch _) as [| [[| [| [cs |]] rs] |]]; cbn in *; congruence.
Qed.

(** Without a route every frame returns the entry as it found it and
    emits its stored position. *)
Lemma run_without_route (o : PoliceOfficer) (ticks : list (R * R))
    (d : OfficerData) :
  route d = [] ->
  exists fs, run o ticks d = Some (fs, d) /\
             length fs = length ticks /\
             Forall (fun f => f_coordinates f = current d) fs.
Proof.
  intros Hr. induction ticks as [| [now rnd] rest (fs & Hrun & Hlen & Hall)].
  - exists []. cbn. auto.
  - assert (Hstep : step now rnd d = Some d)
      by (unfold step; rewrite Hr; reflexivity).
    exists (emit o (Some d) d :: fs). cbn [run].
    rewrite Hstep, Hrun. repeat split.
    + cbn. congruence.
    + constructor; [| exact Hall].
      unfold emit. rewrite Hr. reflexivity.
Qed.

(** C5. When the token is missing, the request fails, or the answer has
    no routes, [fetchPatrolRoute] resolves to [null]; the callback then
    leaves the unit's entry as initialised, and every later frame emits
    the unit's starting position and leaves the entry unchanged. *)
Theorem route_failure_leaves_unit_stationary
    (token : option string) (fetch : DirectionsRequest -> FetchOutcome)
    (r1 r2 t0 rnd0 : R) (o : PoliceOfficer)
    (st : gmap string OfficerData) (ticks : list (R * R)) :
  (falsy_token token = true \/
   exists tok, token = Some tok /\
     no_route (fetch (mkRequest (patrolWaypoints (o_location o) r1 r2) tok))
       = true) ->
  let d0 := initOfficer t0 rnd0 o in
  let st0 := <[o_id o := d0]> st in
  fetchPatrolRoute token fetch r1 r2 (o_location o) = RouteNull /\
  installRoute (o_id o) RouteNull st0 = st0 /\
  st0 !! o_id o = Some d0 /\
  (forall now rnd, exists f,
     animateOfficer now rnd o (st0 !! o_id o) = Some (f, Some d0) /\
     f_coordinates f = o_location o) /\
  exists fs, run o ticks d0 = Some (fs, d0) /\
             length fs = length ticks /\
             Forall (fun f => f_coordinates f = o_location o) fs.
Proof.
  intros Hfail d0 st0.
  split; [apply fetchPatrolRoute_unavailable, Hfail |].
  assert (Hlook : st0 !! o_id o = Some d0) by apply lookup_insert_eq.
  split; [unfold installRoute; rewrite Hlook; reflexivity |].
  split; [exact Hlook |].
  split.
  - intros now rnd. rewrite Hlook. eexists. split; reflexivity.
  - apply (run_without_route o ticks d0). reflexivity.
Qed.

Lemma offset_length (a k : R) : 0 <= k ->
  sqrt (cos a * k * (cos a * k) + sin a * k * (sin a * k)) = k.
Proof.
  intros Hk.
  replace (cos a * k * (cos a * k) + sin a * k * (sin a * k))
    with ((k * k) * ((sin a)² + (cos a)²)) by (unfold Rsqr; ring).
  rewrite sin2_cos2, Rmult_1_r. apply sqrt_square, Hk.
Qed.

Lemma dist_offset (p : point) (a k : R) : 0 <= k ->
  dist p (fst p + cos a * k, snd p + sin a * k) = k.
Proof.
  intros Hk. unfold dist. cbn [fst snd].
  transitivity (sqrt (cos a * k * (cos a * k) + sin a * k * (sin a * k))).
  - f_equal. ring.
  - apply offset_length, Hk.
Qed.

(** C8. The Directions request of [fetchPatrolRoute] lists four
    coordinates: the starting point, two waypoints each 0.002 degrees from
    it, and the starting point again.  It is the request the function
    sends: with a token, the route it resolves to is the one the service
    answers to this request, whatever the service would answer to any
    other, and it is the only request the function makes. *)
Theorem patrol_request_is_closed_loop (start : point) (r1 r2 : R) :
  exists w1 w2 : point,
    patrolWaypoints start r1 r2 = [start; w1; w2; start] /\
    head (patrolWaypoints start r1 r2) = Some start /\
    last (patrolWaypoints start r1 r2) = Some start /\
    dist start w1 = 2 / 1000 /\
    dist start w2 = 2 / 1000 /\
    (forall (c : Ascii.ascii) (s : string)
            (fetch fetch' : DirectionsRequest -> FetchOutcome),
       fetch (mkRequest (patrolWaypoints start r1 r2) (String c s))
         = fetch' (mkRequest (patrolWaypoints start r1 r2) (String c s)) ->
       fetchPatrolRoute (Some (String c s)) fetch r1 r2 start
         = fetchPatrolRoute (Some (String c s)) fetch' r1 r2 start) /\
    (forall (c : Ascii.ascii) (s : string)
            (fetch : DirectionsRequest -> FetchOutcome)
            (cs : list point) (others : list RouteJson),
       fetch (mkRequest [start; w1; w2; start] (String c s))
         = Body (Some (Geometry (Some cs) :: others)) ->
       fetchPatrolRoute (Some (String c s)) fetch r1 r2 start
         = RouteCoords cs).
Proof.
  set (a1 := r1 * PI * 2).
  set (a2 := a1 + PI / 2 + (r2 - 1 / 2) * PI).
  exists (fst start + cos a1 * (2 / 1000), snd start + sin a1 * (2 / 1000)),
         (fst start + cos a2 * (2 / 1000), snd start + sin a2 * (2 / 1000)).
  split; [reflexivity |].
  split; [reflexivity |].
  split; [reflexivity |].
  split; [apply dist_offset; lra |].
  split; [apply dist_offset; lra |].
  split.
  - intros c s fetch fetch' Heq. unfold fetchPatrolRoute.
    rewrite Heq. reflexivity.
  - intros c s fetch cs others Hanswer.
    assert (Hsent : fetch (mkRequest (patrolWaypoints start r1 r2)
                             (String c s))
                    = Body (Some (Geometry (Some cs) :: others)))
      by exact Hanswer.
    unfold fetchPatrolRoute. rewrite Hsent. reflexivity.
Qed.

(** ** Proximity query *)

#[local] Instance closer_total : Total Tracking.closer.
Proof.
  intros h1 h2. unfold Tracking.closer.
  destruct (Rle_or_lt (Tracking.distance_km h1) (Tracking.distance_km h2));
    [left; assumption | right; lra].
Qed.

#[local] Instance closer_trans : Transitive Tracking.closer.
Proof. intros h1 h2 h3. unfold Tracking.closer. lra. Qed.

Lemma haversine_self (lat lng : R) : Tracking.haversine_km lat lng lat lng = 0.
Proof.
  unfold Tracking.haversine_km, Tracking.radians. cbv zeta.
  replace ((lat - lat) * PI / 180 / 2) with 0 by (field; lra).
  replace ((lng - lng) * PI / 180 / 2) with 0 by (field; lra).
  rewrite sin_0. unfold Rsqr.
  replace (0 * 0 + cos (lat * PI / 180) * cos (lat * PI / 180) * (0 * 0))
    with 0 by ring.
  rewrite Rminus_0_r, sqrt_0, sqrt_1, atan2_0_pos by lra. ring.
Qed.

(** The hits before ordering: every record of the snapshot with its
    distance, kept when within the radius. *)
Lemma elem_of_measured (store : gmap string Tracking.Position)
    (clat clng radius : R) (u : string) (p : Tracking.Position) (dkm : R) :
  (u, p, dkm) ∈ filter (fun h => Tracking.distance_km h <= radius)
                  (Tracking.measure clat clng <$> Tracking.list_all store)
  <-> store !! u = Some p /\
      dkm = Tracking.haversine_km clat clng (Tracking.lat p) (Tracking.lng p) /\
      dkm <= radius.
Proof.
  rewrite list_elem_of_filter, list_elem_of_fmap. unfold Tracking.list_all.
  split.
  - intros (Hle & [u' p'] & Heq & Hin).
    apply elem_of_map_to_list in Hin.
    unfold Tracking.measure in Heq. cbn in Heq. injection Heq as -> -> ->.
    auto.
  - intros (Hin & -> & Hle). split; [exact Hle |].
    exists (u, p). split; [reflexivity |].
    apply elem_of_map_to_list, Hin.
Qed.

(** C6. The proximity query returns exactly the units of the store whose
    haversine distance from the centre is at most [radius_km], each once
    and with that distance, in ascending order of distance; and the
    haversine distance from a point to itself is 0. *)
Theorem query_returns_units_within_radius_ascending
    (store : gmap string Tracking.Position) (clat clng radius_km : R) :
  (forall (u : string) (p : Tracking.Position) (dkm : R),
     (u, p, dkm) ∈ Tracking.query store clat clng radius_km <->
     store !! u = Some p /\
     dkm = Tracking.haversine_km clat clng (Tracking.lat p) (Tracking.lng p) /\
     dkm <= radius_km) /\
  NoDup ((fun h : Tracking.Hit => fst (fst h))
           <$> Tracking.query store clat clng radius_km) /\
  StronglySorted (fun h1 h2 => Tracking.distance_km h1 <= Tracking.distance_km h2)
    (Tracking.query store clat clng radius_km) /\
  (forall lat lng : R, Tracking.haversine_km lat lng lat lng = 0).
Proof.
  pose proof (merge_sort_Permutation Tracking.closer
    (filter (fun h => Tracking.distance_km h <= radius_km)
       (Tracking.measure clat clng <$> Tracking.list_all store))) as Hperm.
  fold (Tracking.query store clat clng radius_km) in Hperm.
  split; [| split; [| split]].
  - intros u p dkm. rewrite Hperm. apply elem_of_measured.
  - rewrite Hperm.
    apply sublist_NoDup with ((Tracking.list_all store).*1).
    + apply NoDup_fst_map_to_list.
    + transitivity ((fun h : Tracking.Hit => fst (fst h))
                      <$> (Tracking.measure clat clng
                             <$> Tracking.list_all store)).
      * apply fmap_sublist, sublist_filter.
      * rewrite <- list_fmap_compose. reflexivity.
  - apply (StronglySorted_merge_sort Tracking.closer).
  - exact haversine_self.
Qed.

(** ** Sync cycle *)

Section SyncFacts.

Context {Durable : Type}.
Implicit Types (c : Tracking.SyncCheckpoint) (db : Durable).
Implicit Types (l : list (string * Tracking.Position)).

(** The records of a snapshot are attempted one by one whatever the
    outcome of the others; each adds one to exactly one counter. *)
Lemma fold_sync_record upsert l c db attempted :
  exists c' db',
    fold_left (Tracking.sync_record upsert) l (c, db, attempted)
      = (c', db', attempted ++ l.*1) /\
    (Tracking.successful_upserts c' + Tracking.failed_upserts c'
     = Tracking.successful_upserts c + Tracking.failed_upserts c + length l)%nat /\
    (Tracking.successful_upserts c <= Tracking.successful_upserts c')%nat /\
    (Tracking.failed_upserts c <= Tracking.failed_upserts c')%nat /\
    Tracking.total_sync_cycles c' = Tracking.total_sync_cycles c /\
    Tracking.last_cycle_at c' = Tracking.last_cycle_at c.
Proof.
  revert c db attempted.
  induction l as [| rec l IH]; intros c db attempted.
  - exists c, db. cbn. rewrite app_nil_r. repeat split; lia.
  - cbn [fold_left]. unfold Tracking.sync_record at 2.
    destruct (upsert db rec) as [db1 |].
    + edestruct IH as (c' & db' & -> & Hsum & Hs & Hf & Ht & Hl).
      exists c', db'. cbn in *. rewrite <- app_assoc. cbn.
      repeat split; try lia; assumption.
    + edestruct IH as (c' & db' & -> & Hsum & Hs & Hf & Ht & Hl).
      exists c', db'. cbn in *. rewrite <- app_assoc. cbn.
      repeat split; try lia; assumption.
Qed.

Lemma fold_sync_record_outage upsert l c db attempted :
  (forall db0 rec, upsert db0 rec = None) ->
  fold_left (Tracking.sync_record upsert) l (c, db, attempted)
    = (Tracking.mkCheckpoint (Tracking.total_sync_cycles c)
         (Tracking.successful_upserts c)
         (Tracking.failed_upserts c + length l)
         (Tracking.last_cycle_at c),
       db, attempted ++ l.*1).
Proof.
  intros Hdown. revert c attempted.
  induction l as [| rec l IH]; intros c attempted.
  - cbn. rewrite app_nil_r, Nat.add_0_r. destruct c; reflexivity.
  - cbn [fold_left]. unfold Tracking.sync_record at 2. rewrite Hdown.
    rewrite IH. cbn. rewrite <- app_assoc. cbn.
    do 2 f_equal. f_equal. lia.
Qed.

(** Each attempt is booked under its own outcome: an accepted upsert
    adds one to [successful_upserts], a failed one adds one to
    [failed_upserts]. *)
Lemma fold_sync_record_outcomes upsert l c db attempted :
  exists c' db',
    fold_left (Tracking.sync_record upsert) l (c, db, attempted)
      = (c', db', attempted ++ l.*1) /\
    Tracking.successful_upserts c'
      = (Tracking.successful_upserts c
         + length (filter (fun b : bool => b = true)
                     (Tracking.outcomes upsert l db)))%nat /\
    Tracking.failed_upserts c'
      = (Tracking.failed_upserts c
         + length (filter (fun b : bool => b = false)
                     (Tracking.outcomes upsert l db)))%nat.
Proof.
  revert c db attempted.
  induction l as [| rec l IH]; intros c db attempted.
  - exists c, db. cbn. rewrite app_nil_r. repeat split; lia.
  - cbn [fold_left Tracking.outcomes]. unfold Tracking.sync_record at 2.
    destruct (upsert db rec) as [db1 |].
    + edestruct IH as (c' & db' & -> & Hs & Hf).
      exists c', db'. rewrite <- app_assoc.
      split; [reflexivity |].
      rewrite filter_cons_True by reflexivity.
      rewrite filter_cons_False by discriminate.
      cbn in *. split; lia.
    + edestruct IH as (c' & db' & -> & Hs & Hf).
      exists c', db'. rewrite <- app_assoc.
      split; [reflexivity |].
      rewrite filter_cons_False by discriminate.
      rewrite filter_cons_True by reflexivity.
      cbn in *. split; lia.
Qed.

Lemma outcomes_length upsert l db :
  length (Tracking.outcomes upsert l db) = length l.
Proof.
  revert db. induction l as [| rec l IH]; intros db; [reflexivity |].
  cbn. destruct (upsert db rec); cbn; rewrite IH; reflexivity.
Qed.

(** When the records alone decide whether an upsert fails, the outcomes
    are those of the records. *)
Lemma outcomes_by_record upsert (ok : string * Tracking.Position -> bool)
    l db :
  (forall db0 rec, upsert db0 rec = None <-> ok rec = false) ->
  length (filter (fun b : bool => b = true) (Tracking.outcomes upsert l db))
    = length (filter (fun rec => ok rec = true) l) /\
  length (filter (fun b : bool => b = false) (Tracking.outcomes upsert l db))
    = length (filter (fun rec => ok rec = false) l).
Proof.
  intros Hok. revert db. induction l as [| rec l IH]; intros db;
    [split; reflexivity |].
  cbn [Tracking.outcomes].
  destruct (upsert db rec) as [db1 |] eqn:Hup.
  - assert (Hrec : ok rec = true).
    { destruct (ok rec) eqn:Ho; [reflexivity |].
      apply (Hok db) in Ho. congruence. }
    destruct (IH db1) as [IHs IHf].
    rewrite !filter_cons_True by (reflexivity || exact Hrec).
    rewrite !filter_cons_False by (discriminate || congruence).
    cbn. rewrite IHs, IHf. split; reflexivity.
  - assert (Hrec : ok rec = false) by (apply (Hok db); exact Hup).
    destruct (IH db) as [IHs IHf].
    rewrite !filter_cons_False by (discriminate || congruence).
    rewrite !filter_cons_True by (reflexivity || exact Hrec).
    cbn. rewrite IHs, IHf. split; reflexivity.
Qed.

End SyncFacts.

(** C7. A sync cycle attempts every record of its snapshot, in order and
    whatever the outcome of the others; an attempt the durable store
    accepts adds one to [successful_upserts] and an attempt that fails
    adds one to [failed_upserts], so that every attempt is counted once
    under its own outcome; the cycle sets [last_cycle_at] and adds one to
    [total_sync_cycles].  When every upsert fails, [failed_upserts] grows
    by the number of records, the other counter and the durable store are
    unchanged, and a following cycle again attempts and counts each of
    its records once. *)
Theorem sync_cycle_attempts_every_record
    {Durable : Type}
    (upsert : Durable -> string * Tracking.Position -> option Durable)
    (now : R) (store : gmap string Tracking.Position)
    (c : Tracking.SyncCheckpoint) (db : Durable) :
  let snapshot := Tracking.list_all store in
  let result := Tracking.sync_cycle upsert now store (c, db) in
  let c' := fst (fst result) in
  let db' := snd (fst result) in
  let answers := Tracking.outcomes upsert snapshot db in
  snd result = snapshot.*1 /\
  (Tracking.successful_upserts c' + Tracking.failed_upserts c'
   = Tracking.successful_upserts c + Tracking.failed_upserts c
     + length snapshot)%nat /\
  (Tracking.successful_upserts c <= Tracking.successful_upserts c')%nat /\
  (Tracking.failed_upserts c <= Tracking.failed_upserts c')%nat /\
  Tracking.total_sync_cycles c' = S (Tracking.total_sync_cycles c) /\
  Tracking.last_cycle_at c' = Some now /\
  length answers = length snapshot /\
  Tracking.successful_upserts c'
    = (Tracking.successful_upserts c
       + length (filter (fun b : bool => b = true) answers))%nat /\
  Tracking.failed_upserts c'
    = (Tracking.failed_upserts c
       + length (filter (fun b : bool => b = false) answers))%nat /\
  (forall ok : string * Tracking.Position -> bool,
     (forall db0 rec, upsert db0 rec = None <-> ok rec = false) ->
     Tracking.successful_upserts c'
       = (Tracking.successful_upserts c
          + length (filter (fun rec => ok rec = true) snapshot))%nat /\
     Tracking.failed_upserts c'
       = (Tracking.failed_upserts c
          + length (filter (fun rec => ok rec = false) snapshot))%nat) /\
  ((forall db0 rec, upsert db0 rec = None) ->
   Tracking.failed_upserts c'
     = (Tracking.failed_upserts c + length snapshot)%nat /\
   Tracking.successful_upserts c' = Tracking.successful_upserts c /\
   db' = db /\
   forall upsert2 now2 store2,
     let result2 := Tracking.sync_cycle upsert2 now2 store2 (c', db') in
     let c2 := fst (fst result2) in
     snd result2 = (Tracking.list_all store2).*1 /\
     (Tracking.successful_upserts c2 + Tracking.failed_upserts c2
      = Tracking.successful_upserts c' + Tracking.failed_upserts c'
        + length (Tracking.list_all store2))%nat /\
     Tracking.total_sync_cycles c2 = S (S (Tracking.total_sync_cycles c)) /\
     Tracking.last_cycle_at c2 = Some now2).
Proof.
  assert (Hcycle : forall up t s c0 (db0 : Durable),
    let r := Tracking.sync_cycle up t s (c0, db0) in
    snd r = (Tracking.list_all s).*1 /\
    (Tracking.successful_upserts (fst (fst r))
     + Tracking.failed_upserts (fst (fst r))
     = Tracking.successful_upserts c0 + Tracking.failed_upserts c0
       + length (Tracking.list_all s))%nat /\
    (Tracking.successful_upserts c0
     <= Tracking.successful_upserts (fst (fst r)))%nat /\
    (Tracking.failed_upserts c0 <= Tracking.failed_upserts (fst (fst r)))%nat /\
    Tracking.total_sync_cycles (fst (fst r))
      = S (Tracking.total_sync_cycles c0) /\
    Tracking.last_cycle_at (fst (fst r)) = Some t).
  { intros up t s c0 db0. unfold Tracking.sync_cycle. cbn [fst snd].
    destruct (fold_sync_record up (Tracking.list_all s) c0 db0 [])
      as (c1 & db1 & -> & Hsum & Hs & Hf & Ht & _).
    cbn. rewrite Ht. repeat split; assumption. }
  intros snapshot result c' db' answers.
  destruct (Hcycle upsert now store c db) as (Ha & Hsum & Hs & Hf & Ht & Hl).
  assert (Hbooked :
    Tracking.successful_upserts c'
      = (Tracking.successful_upserts c
         + length (filter (fun b : bool => b = true) answers))%nat /\
    Tracking.failed_upserts c'
      = (Tracking.failed_upserts c
         + length (filter (fun b : bool => b = false) answers))%nat).
  { unfold c', result, answers, snapshot, Tracking.sync_cycle.
    cbn [fst snd].
    destruct (fold_sync_record_outcomes upsert (Tracking.list_all store)
                c db []) as (c1 & db1 & -> & Hs1 & Hf1).
    cbn. split; assumption. }
  destruct Hbooked as [Hsucc Hfail].
  repeat (split; [assumption |]).
  split; [apply outcomes_length |].
  split; [exact Hsucc |]. split; [exact Hfail |].
  split.
  { intros ok Hok.
    destruct (outcomes_by_record upsert ok snapshot db Hok) as [Es Ef].
    fold answers in Es, Ef. rewrite <- Es, <- Ef. split; assumption. }
  intros Hdown.
  assert (Hres : result
    = (Tracking.mkCheckpoint (S (Tracking.total_sync_cycles c))
         (Tracking.successful_upserts c)
         (Tracking.failed_upserts c + length snapshot) (Some now),
       db, snapshot.*1)).
  { unfold result, Tracking.sync_cycle. cbn [fst snd].
    rewrite (fold_sync_record_outage upsert _ _ _ _ Hdown). reflexivity. }
  unfold c', db'. rewrite Hres. cbn [fst snd].
  repeat (split; [reflexivity |]).
  intros upsert2 now2 store2.
  destruct (Hcycle upsert2 now2 store2
              (Tracking.mkCheckpoint (S (Tracking.total_sync_cycles c))
                 (Tracking.successful_upserts c)
                 (Tracking.failed_upserts c + length snapshot) (Some now))
              db) as (Ha2 & Hsum2 & _ & _ & Ht2 & Hl2).
  repeat split; assumption.
Qed.

(** * The statements at concrete inputs *)

Lemma easeInOutCubic_shape_witness :
  easeInOutCubic (1 / 4) <= easeInOutCubic (3 / 4) /\
  easeInOutCubic (1 / 4) + easeInOutCubic (1 - 1 / 4) = 1.
Proof.
  destruct easeInOutCubic_shape as (_ & _ & _ & Hmono & Hsym).
  split; [apply Hmono; lra | apply Hsym; lra].
Defined.

Lemma heading_south_far : epsilon < dist (current heading_south) south_of_plaza.
Proof. apply dist_gt; unfold epsilon; cbn; lra. Qed.



Lemma arrival_starts_dwell_and_advances_index_witness :
  0 <= 1 / 2 < 1 /\
  waitGate 11500 back_at_start = Some (clearWait 11500 back_at_start) /\
  dist (current (clearWait 11500 back_at_start)) plaza <= epsilon /\
  exists (d' : OfficerData) (deadline : R),
    step 11500 (1 / 2) back_at_start = Some d' /\
    waitingUntil d' = Some deadline /\
    2000 <= deadline - 11500 < 3000 /\
    routeIndex d' = 1%nat.
Proof.
  assert (Hrnd : 0 <= 1 / 2 < 1) by lra.
  split; [exact Hrnd |].
  split; [exact back_at_start_resumes |].
  split; [exact back_at_start_near |].
  destruct (arrival_starts_dwell_and_advances_index 11500 (1 / 2)
              back_at_start (clearWait 11500 back_at_start) plaza
              Hrnd back_at_start_resumes eq_refl back_at_start_near)
    as (d' & deadline & Hstep & Hw & Hd & Hi & _).
  exists d', deadline. auto.
Defined.

Lemma waiting_tick_holds_then_resumes_witness :
  waitingUntil back_at_start = Some 11500 /\
  route back_at_start !! routeIndex back_at_start = Some plaza /\
  step 10000 0 back_at_start = Some back_at_start /\
  f_coordinates (emit officer_U1 (Some back_at_start) back_at_start)
    = short_of_plaza.
Proof.
  split; [reflexivity |]. split; [reflexivity |].
  destruct (waiting_tick_holds_then_resumes 10000 0 11500 officer_U1
              back_at_start plaza eq_refl eq_refl) as [Hhold _].
  destruct Hhold as (Hstep & Hc & _); [lra |].
  split; [exact Hstep | exact Hc].
Defined.

Lemma route_failure_leaves_unit_stationary_witness :
  falsy_token None = true /\
  fetchPatrolRoute None (fun _ => Rejected) 0 0 (o_location officer_U1)
    = RouteNull /\
  exists fs,
    run officer_U1 [(1000, 0); (2000, 0)] (initOfficer 0 0 officer_U1)
      = Some (fs, initOfficer 0 0 officer_U1) /\
    Forall (fun f => f_coordinates f = plaza) fs.
Proof.
  split; [reflexivity |].
  destruct (route_failure_leaves_unit_stationary None (fun _ => Rejected)
              0 0 0 0 officer_U1 ∅ [(1000, 0); (2000, 0)]
              (or_introl eq_refl))
    as (Hnull & _ & _ & _ & fs & Hrun & _ & Hall).
  split; [exact Hnull |].
  exists fs. split; [exact Hrun | exact Hall].
Defined.

Lemma query_returns_units_within_radius_ascending_witness :
  ("U1", parked_on_plaza, 0)
    ∈ Tracking.query {["U1" := parked_on_plaza]}
        (33749 / 1000) (-84388 / 1000) (5 / 100).
Proof.
  destruct (query_returns_units_within_radius_ascending
              {["U1" := parked_on_plaza]}
              (33749 / 1000) (-84388 / 1000) (5 / 100))
    as (Hiff & _ & _ & Hself).
  apply Hiff. split; [apply lookup_singleton_eq |].
  split; [symmetry; apply Hself | lra].
Defined.

Lemma two_unit_snapshot :
  Tracking.list_all two_units
    ≡ₚ [("U1", parked_on_plaza); ("U2", parked_on_plaza)].
Proof.
  unfold Tracking.list_all, two_units.
  rewrite map_to_list_insert by (apply lookup_singleton_ne; discriminate).
  rewrite map_to_list_singleton. reflexivity.
Qed.

Lemma sync_cycle_attempts_every_record_witness :
  Tracking.failed_upserts
    (fst (fst (Tracking.sync_cycle refuses_U1 10000 two_units
                 (Tracking.mkCheckpoint 4 7 0 None, tt)))) = 1%nat /\
  Tracking.successful_upserts
    (fst (fst (Tracking.sync_cycle refuses_U1 10000 two_units
                 (Tracking.mkCheckpoint 4 7 0 None, tt)))) = 8%nat /\
  Tracking.total_sync_cycles
    (fst (fst (Tracking.sync_cycle refuses_U1 10000 two_units
                 (Tracking.mkCheckpoint 4 7 0 None, tt)))) = 5%nat.
Proof.
  destruct (sync_cycle_attempts_every_record refuses_U1 10000 two_units
              (Tracking.mkCheckpoint 4 7 0 None) tt)
    as (_ & _ & _ & _ & Htotal & _ & _ & _ & _ & Hby & _).
  destruct (Hby (fun rec => negb (String.eqb (fst rec) "U1"))) as [Hs Hf].
  { intros db0 rec. unfold refuses_U1.
    destruct (String.eqb (fst rec) "U1"); cbn; split; congruence. }
  rewrite two_unit_snapshot in Hs, Hf.
  split; [exact Hf |]. split; [exact Hs | exact Htotal].
Defined.

(** * Further properties of the patrol simulation *)

Lemma dist_self (p : point) : dist p p = 0.
Proof.
  unfold dist. cbn zeta.
  replace ((fst p - fst p) * (fst p - fst p)
           + (snd p - snd p) * (snd p - snd p)) with 0 by ring.
  apply sqrt_0.
Qed.

Lemma dist_along_abs (p q : point) (k : R) :
  dist p (along p q k) = Rabs k * dist p q.
Proof.
  unfold dist, along. cbn [fst snd].
  replace ((fst p + (fst q - fst p) * k - fst p)
           * (fst p + (fst q - fst p) * k - fst p)
           + (snd p + (snd q - snd p) * k - snd p)
             * (snd p + (snd q - snd p) * k - snd p))
    with (k² * ((fst q - fst p) * (fst q - fst p)
                + (snd q - snd p) * (snd q - snd p)))
    by (unfold Rsqr; ring).
  rewrite sqrt_mult_alt by apply Rle_0_sqr.
  rewrite sqrt_Rsqr_abs. reflexivity.
Qed.

(** X1. No frame moves a unit by more than [3 * baseSpeed] (0.0000045
    degrees), whatever its state and whatever the clock reads. *)
Theorem frame_displacement_bounded (now rnd : R) (d d' : OfficerData) :
  step now rnd d = Some d' ->
  dist (current d) (current d') <= 3 * baseSpeed.
Proof.
  pose proof baseSpeed_pos as Hb.
  assert (Hstill : forall e, current e = current d ->
                     dist (current d) (current e) <= 3 * baseSpeed).
  { intros e ->. rewrite dist_self. lra. }
  unfold step. destruct (route d); [intros [= <-]; auto |].
  destruct (waitGate now d) as [d0 |] eqn:Hg; [| intros [= <-]; auto].
  destruct (waitGate_frame _ _ _ Hg) as (Hc & _).
  unfold moveAlong. destruct (route d0 !! routeIndex d0) as [t |];
    [| discriminate].
  destruct (Rlt_dec epsilon (dist (current d0) t)) as [Hfar | Hnear];
    intros [= <-]; [| apply Hstill; exact Hc].
  rewrite advance_current, <- Hc, dist_along_abs.
  destruct (ratio_uncapped now t d0 Hfar) as [Hr _].
  pose proof (adjusted_speed_bounds (progressAt now d0)) as [Hlo Hhi].
  pose proof epsilon_pos as He.
  rewrite Hr. unfold Rdiv. rewrite Rabs_mult, Rabs_inv.
  rewrite (Rabs_pos_eq (dist _ _)) by lra.
  rewrite Rmult_assoc, Rinv_l, Rmult_1_r by lra.
  apply Rabs_le. lra.
Qed.

(** X2. In a moving frame the cap at 1 never binds, because the largest
    step, [3 * baseSpeed], is smaller than [epsilon]: the unit covers
    exactly the adjusted speed and ends the frame more than 0.0000005
    degrees away from the waypoint; it never lands on it. *)
Theorem moving_tick_stops_short
    (now rnd : R) (d d0 : OfficerData) (target : point) :
  waitGate now d = Some d0 ->
  route d0 !! routeIndex d0 = Some target ->
  epsilon < dist (current d0) target ->
  let adjustedSpeed := baseSpeed * speedMultiplier (progressAt now d0) in
  exists d' : OfficerData,
    step now rnd d = Some d' /\
    Js.min (adjustedSpeed / dist (current d) target) 1
      = adjustedSpeed / dist (current d) target /\
    adjustedSpeed / dist (current d) target < 1 /\
    dist (current d') target = dist (current d) target - adjustedSpeed /\
    5 / 10000000 < dist (current d') target.
Proof.
  intros Hg Ht Hfar adjustedSpeed.
  destruct (waitGate_frame _ _ _ Hg) as (Hc & _).
  destruct (ratio_uncapped now target d0 Hfar) as [Hr Hlt].
  pose proof (adjusted_speed_bounds (progressAt now d0)) as [_ Hhi].
  pose proof epsilon_pos as He.
  fold adjustedSpeed in Hr, Hhi. rewrite Hc in Hr, Hfar.
  exists (advance now target d0).
  split; [eapply step_moving; [eassumption .. | rewrite Hc; exact Hfar] |].
  assert (Hmin : Js.min (adjustedSpeed / dist (current d) target) 1
                 = adjustedSpeed / dist (current d) target).
  { transitivity (ratioAt now target d0); [| exact Hr].
    unfold ratioAt. rewrite Hc. reflexivity. }
  split; [exact Hmin |].
  split; [rewrite <- Hr; exact Hlt |].
  assert (Hd : dist (current (advance now target d0)) target
               = dist (current d) target - adjustedSpeed).
  { rewrite advance_current, Hc, dist_along_to by lra.
    rewrite Hr. field. lra. }
  split; [exact Hd |].
  rewrite Hd. unfold epsilon, baseSpeed in *. lra.
Qed.

(** A moving frame under a sound clock brings the unit at least
    [baseSpeed] closer and keeps it on the same segment. *)
Lemma advance_progress (now : R) (t : point) (d : OfficerData) :
  segmentStartTime d <= now -> epsilon < dist (current d) t ->
  dist (current (advance now t d)) t <= dist (current d) t - baseSpeed.
Proof.
  intros Hclock Hfar.
  destruct (ratio_uncapped now t d Hfar) as [Hr Hlt].
  pose proof (multiplier_range _ (progress_range now d Hclock)) as [Hm _].
  pose proof baseSpeed_pos as Hb. pose proof epsilon_pos as He.
  rewrite advance_current, dist_along_to by lra.
  rewrite Hr.
  replace ((1 - baseSpeed * speedMultiplier (progressAt now d)
                / dist (current d) t) * dist (current d) t)
    with (dist (current d) t
          - baseSpeed * speedMultiplier (progressAt now d))
    by (field; lra).
  nra.
Qed.

(** X3. A moving unit reaches its waypoint: at distance [D] from the
    active waypoint, with frames whose clock is not behind the start of
    the segment, one of the first [n] frames is the arrival frame as soon
    as [D - epsilon <= (n - 1) * baseSpeed]. *)
Theorem unit_arrives_within_bounded_frames
    (o : PoliceOfficer) (ticks : list (R * R)) (d : OfficerData)
    (target : point) :
  waitingUntil d = None ->
  route d !! routeIndex d = Some target ->
  Forall (fun t => segmentStartTime d <= fst t) ticks ->
  ticks <> [] ->
  dist (current d) target - epsilon <= (INR (length ticks) - 1) * baseSpeed ->
  exists (pre post : list (R * R)) (t : R * R) (fs : list Feature)
         (d1 : OfficerData),
    ticks = pre ++ t :: post /\
    run o pre d = Some (fs, d1) /\
    route d1 = route d /\
    routeIndex d1 = routeIndex d /\
    dist (current d1) target <= epsilon /\
    step (fst t) (snd t) d1 = Some (arrive (fst t) (snd t) d1).
Proof.
  revert d. induction ticks as [| [now rnd] rest IH];
    intros d Hw Ht Hclock Hne Hbound; [congruence |].
  assert (Hg : forall t, waitGate t d = Some d)
    by (intros t; unfold waitGate; rewrite Hw; reflexivity).
  destruct (Rlt_dec epsilon (dist (current d) target)) as [Hfar | Hnear].
  - (* still far: this frame advances, a later one arrives *)
    apply Forall_cons in Hclock as [Hnow Hrest]. cbn [fst] in Hnow.
    pose proof (advance_progress now target d Hnow Hfar) as Hcloser.
    pose proof baseSpeed_pos as Hb.
    assert (Hrest_ne : rest <> []).
    { intros ->. cbn in Hbound. lra. }
    destruct (IH (advance now target d)) as
      (pre & post & t & fs & d1 & -> & Hrun & Hr & Hi & Hd & Hs);
      [exact Hw | exact Ht | exact Hrest | exact Hrest_ne | |].
    { assert (Hlen : INR (length ((now, rnd) :: rest))
                     = INR (length rest) + 1)
        by (cbn [length]; rewrite S_INR; reflexivity).
      rewrite Hlen in Hbound. lra. }
    exists ((now, rnd) :: pre), post, t,
           (emit o (Some d) (advance now target d) :: fs), d1.
    split; [reflexivity |].
    split.
    { cbn [run]. rewrite (step_moving now rnd d d target (Hg now) Ht Hfar).
      rewrite Hrun. reflexivity. }
    auto.
  - (* within epsilon: this frame is the arrival *)
    exists [], rest, (now, rnd), [], d.
    assert (Hle : dist (current d) target <= epsilon) by lra.
    repeat split; try reflexivity; try exact Hle.
    exact (step_arriving now rnd d d target (Hg now) Ht Hle).
Qed.

(** ** The shared [officerData] map *)

Lemma initOfficer_ok (now rnd : R) (o : PoliceOfficer) :
  index_ok (initOfficer now rnd o).
Proof. left. reflexivity. Qed.

Lemma store_ok_insert (st : gmap string OfficerData) (k : string)
    (d : OfficerData) :
  store_ok st -> index_ok d -> store_ok (<[k := d]> st).
Proof.
  intros Hst Hd k' d'. rewrite lookup_insert.
  destruct (decide (k = k')); [intros [= <-]; exact Hd | apply Hst].
Qed.

Lemma installRoute_ok (k : string) (r : RouteResult)
    (st : gmap string OfficerData) :
  store_ok st -> store_ok (installRoute k r st).
Proof.
  intros Hst. unfold installRoute.
  destruct (st !! k) as [d |]; [| exact Hst].
  destruct r as [| | cs]; try exact Hst.
  apply store_ok_insert; [exact Hst |].
  unfold index_ok. cbn. destruct cs; [left; reflexivity | right; cbn; lia].
Qed.

Lemma installRoute_dom (k : string) (r : RouteResult)
    (st : gmap string OfficerData) :
  dom (installRoute k r st) = dom st.
Proof.
  unfold installRoute. destruct (st !! k) as [d |] eqn:Hk; [| reflexivity].
  destruct r as [| | cs]; try reflexivity.
  apply dom_insert_lookup_L. rewrite Hk. eauto.
Qed.

Lemma animateOfficer_entry (now rnd : R) (o : PoliceOfficer)
    (data : option OfficerData) (f : Feature) (data' : option OfficerData) :
  animateOfficer now rnd o data = Some (f, data') ->
  f_id f = o_id o /\
  match data with
  | None => data' = None /\ f = feature o 0 (o_location o)
  | Some d => exists d', data' = Some d' /\ step now rnd d = Some d'
  end.
Proof.
  unfold animateOfficer. destruct data as [d |].
  - destruct (step now rnd d) as [d' |]; [| discriminate].
    intros [= <- <-]. split; [| eauto].
    unfold emit. destruct (route d); reflexivity.
  - intros [= <- <-]. auto.
Qed.

(** On a well-formed map a frame runs to its end. *)
Lemma animateOfficers_total
    (now : R) (officers : list (PoliceOfficer * R))
    (st : gmap string OfficerData) :
  store_ok st ->
  exists (fs : list Feature) (st' : gmap string OfficerData),
    animateOfficers now officers st = Some (fs, st') /\
    store_ok st' /\
    dom st' = dom st /\
    f_id <$> fs = (fun p => o_id (fst p)) <$> officers.
Proof.
  revert st. induction officers as [| [o rnd] rest IH]; intros st Hst.
  - exists [], st. cbn. auto.
  - cbn [animateOfficers].
    destruct (st !! o_id o) as [d |] eqn:Hk.
    + destruct (step_total now rnd d (Hst _ _ Hk)) as (d' & Hs & Hok & _).
      unfold animateOfficer. rewrite Hs.
      destruct (IH (<[o_id o := d']> st)) as (fs & st' & -> & Hst' & Hdom & Hids).
      { apply store_ok_insert; assumption. }
      eexists _, st'. split; [reflexivity |].
      split; [exact Hst' |]. split.
      * rewrite Hdom. apply dom_insert_lookup_L. rewrite Hk. eauto.
      * cbn. rewrite Hids. f_equal. unfold emit. destruct (route d); reflexivity.
    + cbn [animateOfficer].
      destruct (IH st Hst) as (fs & st' & -> & Hst' & Hdom & Hids).
      eexists _, st'. split; [reflexivity |].
      split; [exact Hst' |]. split; [exact Hdom |].
      cbn. rewrite Hids. reflexivity.
Qed.

(** X4. [officerData] stays well formed through the life of the page:
    initialising an officer and installing a fetched route keep every
    waypoint index inside its route, and on a well-formed map a frame of
    [animateOfficers] throws no [TypeError], emits one feature per
    officer, in order and under the officer's id, and leaves the map well
    formed with the same keys. *)
Theorem frames_keep_store_well_formed
    (now : R) (officers : list (PoliceOfficer * R))
    (st : gmap string OfficerData) :
  store_ok st ->
  (forall t rnd o, store_ok (<[o_id o := initOfficer t rnd o]> st)) /\
  (forall k r, store_ok (installRoute k r st) /\
               dom (installRoute k r st) = dom st) /\
  exists (fs : list Feature) (st' : gmap string OfficerData),
    animateOfficers now officers st = Some (fs, st') /\
    store_ok st' /\
    dom st' = dom st /\
    f_id <$> fs = (fun p => o_id (fst p)) <$> officers.
Proof.
  intros Hst.
  split; [intros; apply store_ok_insert; [exact Hst | apply initOfficer_ok] |].
  split; [intros; split; [apply installRoute_ok, Hst | apply installRoute_dom] |].
  apply animateOfficers_total, Hst.
Qed.

(** A frame changes the entries of the officers it lists and no other. *)
Lemma animateOfficers_frame (now : R) (officers : list (PoliceOfficer * R))
    (st st' : gmap string OfficerData) (fs : list Feature) (k : string) :
  animateOfficers now officers st = Some (fs, st') ->
  k ∉ (fun p => o_id (fst p)) <$> officers ->
  st' !! k = st !! k.
Proof.
  revert st fs. induction officers as [| [o rnd] rest IH]; intros st fs.
  - intros [= _ <-] _. reflexivity.
  - cbn [animateOfficers]. intros Hrun Hk.
    rewrite fmap_cons, not_elem_of_cons in Hk. destruct Hk as [Hne Hk].
    cbn [fst] in Hne.
    destruct (animateOfficer now rnd o (st !! o_id o)) as [[f data'] |];
      [| discriminate].
    destruct (animateOfficers now rest _) as [[fs' st''] |] eqn:Hrest;
      [| discriminate].
    injection Hrun as <- <-.
    rewrite (IH _ _ Hrest Hk).
    destruct data'; [apply lookup_insert_ne; congruence | reflexivity].
Qed.

Lemma animateOfficer_keeps_none (now rnd : R) (o : PoliceOfficer)
    (st : gmap string OfficerData) (f : Feature)
    (data' : option OfficerData) (k : string) :
  animateOfficer now rnd o (st !! o_id o) = Some (f, data') ->
  st !! k = None ->
  match data' with
  | Some d' => <[o_id o := d']> st
  | None => st
  end !! k = None.
Proof.
  intros Hone Hnone.
  destruct (animateOfficer_entry _ _ _ _ _ _ Hone) as [_ Hentry].
  destruct (st !! o_id o) as [d |] eqn:Hk.
  - destruct Hentry as (d' & -> & _).
    rewrite lookup_insert_ne; [exact Hnone | congruence].
  - destruct Hentry as [-> _]. exact Hnone.
Qed.

(** X5. An officer that has no entry in [officerData] (one that joined
    [policeOfficers] after the map was set up) gets none from a frame:
    the frame emits it at [officer.location] with heading 0, so that it
    never patrols. *)
Theorem unknown_officer_never_moves
    (now : R) (officers : list (PoliceOfficer * R))
    (st st' : gmap string OfficerData) (fs : list Feature)
    (o : PoliceOfficer) (rnd : R) :
  animateOfficers now officers st = Some (fs, st') ->
  (o, rnd) ∈ officers ->
  st !! o_id o = None ->
  st' !! o_id o = None /\
  feature o 0 (o_location o) ∈ fs.
Proof.
  intros Hrun Hin Hnone. split.
  - clear Hin. revert st fs Hrun Hnone.
    induction officers as [| [o1 rnd1] rest IH]; intros st fs.
    + intros [= _ <-] Hnone. exact Hnone.
    + cbn [animateOfficers]. intros Hrun Hnone.
      destruct (animateOfficer now rnd1 o1 (st !! o_id o1))
        as [[f data'] |] eqn:Hone; [| discriminate].
      destruct (animateOfficers now rest _) as [[fs' st''] |] eqn:Hrest;
        [| discriminate].
      injection Hrun as <- <-.
      eapply IH; [exact Hrest |].
      eapply animateOfficer_keeps_none; eassumption.
  - revert st fs Hrun Hnone.
    induction officers as [| [o1 rnd1] rest IH]; intros st fs;
      [inversion Hin |].
    cbn [animateOfficers]. intros Hrun Hnone.
    destruct (animateOfficer now rnd1 o1 (st !! o_id o1))
      as [[f data'] |] eqn:Hone; [| discriminate].
    destruct (animateOfficers now rest _) as [[fs' st''] |] eqn:Hrest;
      [| discriminate].
    injection Hrun as <- <-.
    apply elem_of_cons in Hin as [[= <- <-] | Hin].
    + rewrite Hnone in Hone. injection Hone as <- _. left.
    + right. eapply IH; [exact Hin | exact Hrest |].
      eapply animateOfficer_keeps_none; eassumption.
Qed.

(** X6. Units do not interfere: when the officers of a frame have
    distinct ids, the entry of each after the frame is the result of its
    own step from its own entry, and entries of officers that are not in
    the frame are untouched. *)
Theorem frame_steps_each_officer_alone
    (now : R) (officers : list (PoliceOfficer * R))
    (st st' : gmap string OfficerData) (fs : list Feature) :
  NoDup ((fun p => o_id (fst p)) <$> officers) ->
  animateOfficers now officers st = Some (fs, st') ->
  (forall k, k ∉ (fun p => o_id (fst p)) <$> officers ->
             st' !! k = st !! k) /\
  (forall o rnd d, (o, rnd) ∈ officers -> st !! o_id o = Some d ->
     exists d', step now rnd d = Some d' /\ st' !! o_id o = Some d').
Proof.
  intros Hnd Hrun.
  split; [intros k Hk; eapply animateOfficers_frame; eassumption |].
  revert st fs Hnd Hrun.
  induction officers as [| [o1 rnd1] rest IH]; intros st fs Hnd;
    [intros _ o rnd d Hin; inversion Hin |].
  cbn [animateOfficers]. intros Hrun o rnd d Hin Hk.
  rewrite fmap_cons in Hnd. apply NoDup_cons in Hnd as [Hfresh Hnd].
  cbn [fst] in Hfresh.
  destruct (animateOfficer now rnd1 o1 (st !! o_id o1))
    as [[f data'] |] eqn:Hone; [| discriminate].
  destruct (animateOfficers now rest _) as [[fs' st''] |] eqn:Hrest;
    [| discriminate].
  injection Hrun as <- <-.
  destruct (animateOfficer_entry _ _ _ _ _ _ Hone) as [_ Hentry].
  apply elem_of_cons in Hin as [[= <- <-] | Hin].
  - rewrite Hk in Hentry. destruct Hentry as (d' & -> & Hs).
    exists d'. split; [exact Hs |].
    rewrite (animateOfficers_frame _ _ _ _ _ _ Hrest Hfresh).
    apply lookup_insert_eq.
  - assert (Hne : o_id o1 <> o_id o).
    { intros Heq. apply Hfresh. rewrite Heq.
      apply list_elem_of_fmap. exists (o, rnd). auto. }
    eapply IH; [exact Hnd | exact Hrest | exact Hin |].
    destruct data'; [rewrite lookup_insert_ne by exact Hne |]; exact Hk.
Qed.

(** ** Headings, dwells and the waypoint index over a run *)

Lemma step_heading (now rnd : R) (d d' : OfficerData) :
  step now rnd d = Some d' ->
  heading d' = heading d \/ -180 < heading d' <= 180.
Proof.
  unfold step. destruct (route d); [intros [= <-]; auto |].
  destruct (waitGate now d) as [d0 |] eqn:Hg; [| intros [= <-]; auto].
  destruct (waitGate_frame _ _ _ Hg) as (_ & _ & _ & Hh).
  unfold moveAlong. destruct (route d0 !! routeIndex d0) as [t |];
    [| discriminate].
  destruct (Rlt_dec epsilon _); intros [= <-].
  - right. apply headingTo_range.
  - left. exact Hh.
Qed.

Lemma or_num_zero (h : R) : Js.or_num h 0 = h.
Proof. unfold Js.or_num. destruct (Req_dec_T h 0); congruence. Qed.

Lemma emit_heading (o : PoliceOfficer) (d d' : OfficerData) :
  route d' = route d ->
  f_heading (emit o (Some d) d') = heading d' \/
  f_heading (emit o (Some d) d') = heading d.
Proof.
  intros Hr. unfold emit. destruct (route d).
  - right. apply or_num_zero.
  - left. reflexivity.
Qed.

Lemma step_route (now rnd : R) (d d' : OfficerData) :
  step now rnd d = Some d' -> route d' = route d.
Proof.
  unfold step. destruct (route d) eqn:Hr; [intros [= <-]; exact Hr |].
  destruct (waitGate now d) as [d0 |] eqn:Hg; [| intros [= <-]; exact Hr].
  destruct (waitGate_frame _ _ _ Hg) as (_ & Hr0 & _).
  unfold moveAlong. destruct (route d0 !! routeIndex d0); [| discriminate].
  destruct (Rlt_dec epsilon _); intros [= <-]; cbn; congruence.
Qed.

(** X7. The headings the simulation does produce: an officer whose
    initial heading lies in (-180, 360) (any heading of [0, 360) given
    with the officer, or the random one) is emitted with a heading in
    (-180, 360) in every frame, and every heading set by a moving frame
    lies in (-180, 180]. *)
Theorem emitted_headings_range
    (o : PoliceOfficer) (ticks : list (R * R)) (d d' : OfficerData)
    (fs : list Feature) :
  -180 < heading d < 360 ->
  run o ticks d = Some (fs, d') ->
  Forall (fun f => -180 < f_heading f < 360) fs /\
  -180 < heading d' < 360 /\
  (forall now rnd e e', step now rnd e = Some e' ->
     heading e' <> heading e -> -180 < heading e' <= 180).
Proof.
  intros Hh Hrun.
  cut ((Forall (fun f => -180 < f_heading f < 360) fs /\
        -180 < heading d' < 360) /\
       (forall now rnd e e', step now rnd e = Some e' ->
          heading e' <> heading e -> -180 < heading e' <= 180));
    [tauto |].
  split.
  - revert d fs Hh Hrun. induction ticks as [| [now rnd] rest IH];
      intros d fs Hh.
    + intros [= <- <-]. split; [constructor | exact Hh].
    + cbn [run]. destruct (step now rnd d) as [d1 |] eqn:Hs; [| discriminate].
      destruct (run o rest d1) as [[fs1 d2] |] eqn:Hrest; [| discriminate].
      intros [= <- <-].
      assert (Hh1 : -180 < heading d1 < 360).
      { destruct (step_heading _ _ _ _ Hs) as [-> | ?]; lra. }
      destruct (IH _ _ Hh1 Hrest) as [Hall Hend].
      split; [| exact Hend]. constructor; [| exact Hall].
      destruct (emit_heading o d d1 (step_route _ _ _ _ Hs)) as [He | He];
        change (-180 < f_heading (emit o (Some d) d1) < 360);
        rewrite He; assumption.
  - intros now rnd e e' Hs Hne.
    destruct (step_heading _ _ _ _ Hs) as [? | ?]; [contradiction | assumption].
Qed.

(** X8. A unit that has arrived stands still for at least two seconds:
    from the entry written by the arrival frame at clock reading [t],
    frames at readings below [t + 2000] return the entry unchanged and
    emit the position at which the unit stopped. *)
Theorem unit_holds_for_two_seconds
    (o : PoliceOfficer) (t rnd : R) (d : OfficerData)
    (ticks : list (R * R)) :
  0 <= rnd ->
  route d <> [] ->
  Forall (fun tk => fst tk < t + 2000) ticks ->
  exists fs : list Feature,
    run o ticks (arrive t rnd d) = Some (fs, arrive t rnd d) /\
    length fs = length ticks /\
    Forall (fun f => f_coordinates f = current d) fs.
Proof.
  intros Hrnd Hne Hticks.
  assert (Hhold : forall now r, now < t + 2000 ->
            step now r (arrive t rnd d) = Some (arrive t rnd d)).
  { intros now r Hnow. unfold step. cbn [route arrive].
    destruct (route d); [congruence |].
    unfold waitGate. cbn [waitingUntil arrive].
    destruct (Rlt_dec now (t + 2000 + rnd * 1000)); [reflexivity | nra]. }
  induction ticks as [| [now r] rest IH].
  - exists []. cbn. auto.
  - apply Forall_cons in Hticks as [Hnow Hrest]. cbn [fst] in Hnow.
    destruct (IH Hrest) as (fs & Hrun & Hlen & Hall).
    exists (emit o (Some (arrive t rnd d)) (arrive t rnd d) :: fs).
    cbn [run]. rewrite (Hhold now r Hnow), Hrun.
    split; [reflexivity |]. split; [cbn; congruence |].
    constructor; [| exact Hall].
    rewrite emit_with_route by exact Hne. reflexivity.
Qed.

(** X9. Waypoints are taken in cyclic order and none is skipped: a frame
    either keeps the waypoint index, or moves it on by one (back to 0
    after the last) and this only when the unit is within [epsilon] of the
    waypoint it leaves behind. *)
Theorem index_moves_only_on_arrival (now rnd : R) (d d' : OfficerData) :
  step now rnd d = Some d' ->
  routeIndex d' = routeIndex d \/
  (exists target : point,
     route d !! routeIndex d = Some target /\
     dist (current d) target <= epsilon /\
     current d' = current d /\
     routeIndex d' = (S (routeIndex d) mod length (route d))%nat).
Proof.
  unfold step. destruct (route d) eqn:Hrd; [intros [= <-]; auto |].
  rewrite <- Hrd.
  destruct (waitGate now d) as [d0 |] eqn:Hg; [| intros [= <-]; auto].
  destruct (waitGate_frame _ _ _ Hg) as (Hc & Hr & Hi & _).
  unfold moveAlong. destruct (route d0 !! routeIndex d0) as [t |] eqn:Ht;
    [| discriminate].
  destruct (Rlt_dec epsilon (dist (current d0) t)) as [Hfar | Hnear];
    intros [= <-].
  - left. exact Hi.
  - right. exists t. rewrite <- Hr, <- Hi, <- Hc.
    split; [exact Ht |]. split; [lra |]. split; [reflexivity |].
    cbn. apply nextIndex_mod. eapply lookup_lt_Some, Ht.
Qed.

Lemma arrivals_frame (ts : list (R * R)) (d : OfficerData) :
  route (arrivals ts d) = route d /\ current (arrivals ts d) = current d.
Proof.
  revert d. induction ts as [| t ts IH]; intros d; [auto |].
  unfold arrivals in *. cbn [fold_left].
  destruct (IH (arrive (fst t) (snd t) d)) as [-> ->]. auto.
Qed.

(** X10. The patrol is a cycle: after [k] arrivals the waypoint index is
    [(i + k) mod n] on a route of [n] waypoints, so after [n] arrivals the
    unit is bound for the waypoint it started with. *)
Theorem arrivals_cycle_through_route (ts : list (R * R)) (d : OfficerData) :
  (routeIndex d < length (route d))%nat ->
  routeIndex (arrivals ts d)
    = ((routeIndex d + length ts) mod length (route d))%nat /\
  (length ts = length (route d) ->
   routeIndex (arrivals ts d) = routeIndex d).
Proof.
  intros Hlt.
  assert (Hidx : routeIndex (arrivals ts d)
                 = ((routeIndex d + length ts) mod length (route d))%nat).
  { revert d Hlt. induction ts as [| t ts IH]; intros d Hlt.
    - cbn. rewrite Nat.add_0_r. symmetry. apply Nat.mod_small, Hlt.
    - unfold arrivals in *. cbn [fold_left length].
      set (d1 := arrive (fst t) (snd t) d).
      assert (Hr1 : route d1 = route d) by reflexivity.
      assert (Hi1 : routeIndex d1
                    = (S (routeIndex d) mod length (route d))%nat)
        by (apply nextIndex_mod, Hlt).
      rewrite IH.
      + rewrite Hr1, Hi1.
        rewrite Nat.Div0.add_mod_idemp_l. f_equal. lia.
      + rewrite Hr1, Hi1. apply Nat.mod_upper_bound. lia. }
  split; [exact Hidx |].
  intros Hlen. rewrite Hidx, Hlen.
  rewrite <- Nat.Div0.add_mod_idemp_r, Nat.Div0.mod_same, Nat.add_0_r.
  apply Nat.mod_small, Hlt.
Qed.

(** * Properties of the rest of the map code *)

(** ** The two route fetchers *)

(** X11. [fetchRouteToIncident] and [fetchPatrolRoute] treat an answer of
    the Directions service alike: on the same token and the same answer
    one resolves to [null] exactly when the other does, and otherwise the
    patrol route is the geometry of the [RouteInfo], whose distance and
    duration are those of the first route of the answer. *)
Theorem route_fetchers_agree
    (token : option string) (out : IncidentOutcome)
    (r1 r2 : R) (start officerLocation incidentLocation : point) :
  fetchPatrolRoute token (fun _ => patrolView out) r1 r2 start
    = match fetchRouteToIncident token (fun _ => out)
              officerLocation incidentLocation with
      | None => RouteNull
      | Some info =>
          match ri_geometry info with
          | Some cs => RouteCoords cs
          | None => RouteUndefined
          end
      end /\
  (forall info,
     fetchRouteToIncident token (fun _ => out) officerLocation
       incidentLocation = Some info ->
     exists route rest,
       out = IncidentBody (Some (route :: rest)) /\
       ri_distance info = rj_distance route /\
       ri_duration info = rj_duration route /\
       rj_geometry route = Geometry (ri_geometry info)).
Proof.
  unfold fetchPatrolRoute, fetchRouteToIncident, patrolView.
  destruct token as [[| c s] |]; try (split; [reflexivity | discriminate]).
  destruct out as [| [[| [dist0 dur0 [| [cs |]]] rest] |]]; cbn;
    split; try reflexivity; try discriminate;
    intros info [= <-]; eexists _, _; cbn; eauto.
Qed.

(** ** The route reveal *)

Lemma linear_progress_range (startTime now : R) :
  startTime <= now ->
  0 <= Js.min ((now - startTime) / animationDuration) 1 <= 1.
Proof.
  intros Hclock. unfold animationDuration. split; [| apply min_le_r].
  apply min_nonneg; [| lra].
  apply Rmult_le_pos; [lra |]. apply Rlt_le, Rinv_0_lt_compat. lra.
Qed.

(** X12. While the route is revealed, the gradient stop stays in [0, 1],
    the distance along the route within the route, and the bearing in
    [0, 30]; none of them ever goes back as the clock advances; the
    animation asks for another frame exactly while less than 5 s have
    elapsed, and the frame that ends it shows the whole route at bearing
    30. *)
Theorem route_reveal_is_bounded_and_ends
    (along : R -> point) (routeDistance startTime now : R)
    (cameraPosition : option point) :
  startTime <= now ->
  0 <= routeDistance ->
  let f := animateRoute along routeDistance startTime now cameraPosition in
  0 <= rf_gradientStop f <= 1 /\
  0 <= rf_distanceAlongRoute f <= routeDistance /\
  0 <= rf_bearing f <= 30 /\
  (rf_again f = true <-> now - startTime < 5000) /\
  (5000 <= now - startTime ->
     rf_gradientStop f = 1 /\ rf_distanceAlongRoute f = routeDistance /\
     rf_bearing f = 30) /\
  (forall later camera', now <= later ->
     rf_gradientStop f
       <= rf_gradientStop
            (animateRoute along routeDistance startTime later camera')).
Proof.
  intros Hclock Hlen f.
  pose proof (linear_progress_range startTime now Hclock) as Hlin.
  pose proof (ease_range _ Hlin) as He.
  unfold f, animateRoute. cbn.
  split; [exact He |].
  split; [nra |].
  split; [lra |].
  split; [| split].
  - unfold Js.min, Rmin, animationDuration.
    destruct (Rle_dec ((now - startTime) / 5000) 1) as [Hle | Hgt].
    + destruct (Rlt_dec ((now - startTime) / 5000) 1) as [Hlt | Hge];
        split; intros H; try discriminate; try reflexivity; lra.
    + destruct (Rlt_dec 1 1); [lra |]. split; [discriminate | lra].
  - intros Hdone.
    assert (Hone : Js.min ((now - startTime) / animationDuration) 1 = 1).
    { unfold Js.min, animationDuration. apply Rmin_right. lra. }
    rewrite Hone. destruct ease_fixed_points as (_ & -> & _).
    repeat split; ring.
  - intros later camera' Hlater.
    assert (Hclock' : startTime <= later) by lra.
    pose proof (linear_progress_range startTime later Hclock') as Hlin'.
    apply ease_mono; [apply Hlin | | apply Hlin'].
    unfold Js.min, animationDuration. apply Rle_min_compat_r. lra.
Qed.

(** X13. The camera follows the revealed point by a 40% step: the first
    frame puts it on the point, and every later frame puts it on the
    segment from its old position to the point, leaving 60% of the
    distance between them. *)
Theorem camera_closes_two_fifths_of_the_gap
    (cameraPosition : option point) (targetPosition : point) :
  (cameraPosition = None ->
   followCamera cameraPosition targetPosition = targetPosition) /\
  (forall c, cameraPosition = Some c ->
     followCamera cameraPosition targetPosition
       = along c targetPosition (4 / 10) /\
     dist (followCamera cameraPosition targetPosition) targetPosition
       = 6 / 10 * dist c targetPosition /\
     dist c (followCamera cameraPosition targetPosition)
       = 4 / 10 * dist c targetPosition).
Proof.
  split; [intros ->; reflexivity |].
  intros c ->.
  assert (Hf : followCamera (Some c) targetPosition
               = along c targetPosition (4 / 10)) by reflexivity.
  rewrite Hf. split; [reflexivity |].
  rewrite dist_along_to, dist_along_from by lra.
  split; f_equal; lra.
Qed.

(** ** The incident pulse *)

Lemma animatePulse_ok (p : Pulse) : pulse_ok p -> pulse_ok (animatePulse p).
Proof.
  unfold pulse_ok, animatePulse. destruct (growing p); cbn; intros H.
  - destruct (Rle_dec (3 / 2) (radiusScale p + 2 / 100)); cbn; lra.
  - destruct (Rle_dec (radiusScale p - 2 / 100) 1); cbn; lra.
Qed.

(** X14. The pulse of the incident marker stays bounded for ever: after
    any number of frames the scale is between 0.98 and 1.52, so the three
    radii are positive, and the opacity is between -0.012 and 0.312; a
    growing pulse grows by 0.02 per frame, a shrinking one shrinks by
    0.02. *)
Theorem pulse_stays_bounded (n : nat) :
  let p := Nat.iter n animatePulse (mkPulse 1 true) in
  98 / 100 <= radiusScale p <= 152 / 100 /\
  Forall (fun r => 0 < r) (pulseRadii p) /\
  -12 / 1000 <= pulseOpacity p <= 312 / 1000 /\
  radiusScale (animatePulse p)
    = (if growing p then radiusScale p + 2 / 100
       else radiusScale p - 2 / 100).
Proof.
  intros p.
  assert (Hok : pulse_ok p).
  { unfold p. induction n as [| n IH]; [cbn; lra |].
    cbn [Nat.iter]. apply animatePulse_ok, IH. }
  assert (Hr : 98 / 100 <= radiusScale p <= 152 / 100)
    by (unfold pulse_ok in Hok; destruct (growing p); lra).
  split; [exact Hr |].
  split; [unfold pulseRadii; repeat constructor; lra |].
  split; [unfold pulseOpacity; lra |].
  unfold animatePulse. destruct (growing p); reflexivity.
Qed.

(** ** The label layer *)

Lemma isLabelLayer_dec (l : StyleLayer) :
  {isLabelLayer l} + {~ isLabelLayer l}.
Proof.
  unfold isLabelLayer.
  destruct (String.eqb_spec (layer_type l) "symbol") as [Ht | Ht];
    [| right; tauto].
  destruct (layer_layout l) as [[|] |];
    [left; auto | right; intros [_ H]; discriminate ..].
Qed.

Lemma elem_of_rev {A : Type} (l : list A) (x : A) : x ∈ rev l <-> x ∈ l.
Proof. rewrite !list_elem_of_In. symmetry. apply in_rev. Qed.

Lemma scanLabelLayer_spec (fromLast : list StyleLayer) :
  (forall l, l ∈ fromLast -> layer_type l = "symbol" ->
             layer_layout l <> None) ->
  (exists above l below,
     fromLast = above ++ l :: below /\
     Forall (fun l0 => ~ isLabelLayer l0) above /\
     isLabelLayer l /\
     scanLabelLayer fromLast = Some (layer_id l)) \/
  (Forall (fun l0 => ~ isLabelLayer l0) fromLast /\
   scanLabelLayer fromLast = Some EmptyString).
Proof.
  induction fromLast as [| l rest IH]; intros Hlay.
  - right. split; [constructor | reflexivity].
  - assert (Hrest : forall l0, l0 ∈ rest -> layer_type l0 = "symbol" ->
                      layer_layout l0 <> None)
      by (intros l0 Hin; apply Hlay; right; exact Hin).
    destruct (isLabelLayer_dec l) as [Hl | Hl].
    + left. exists [], l, rest. split; [reflexivity |].
      split; [constructor |]. split; [exact Hl |].
      destruct Hl as [Ht Hf]. cbn. rewrite Ht, Hf. reflexivity.
    + assert (Hskip : scanLabelLayer (l :: rest) = scanLabelLayer rest).
      { cbn. destruct (String.eqb_spec (layer_type l) "symbol") as [Ht | Ht];
          [| reflexivity].
        destruct (layer_layout l) as [[|] |] eqn:Hf.
        - exfalso. apply Hl. split; assumption.
        - reflexivity.
        - exfalso. eapply Hlay; [left | exact Ht | exact Hf]. }
      rewrite Hskip.
      destruct (IH Hrest) as [(above & l1 & below & -> & Hab & Hl1 & Hs)
                             | [Hall Hs]].
      * left. exists (l :: above), l1, below.
        split; [reflexivity |]. split; [constructor; assumption |]. auto.
      * right. split; [constructor; assumption | exact Hs].
Qed.

(** X15. When every symbol layer of the style has a layout, the search
    for the label layer does not throw and finds the topmost label layer:
    the last layer of the list that is a symbol layer with a text field,
    or the empty id when the style has none. *)
Theorem labelLayerId_is_topmost_label (layers : list StyleLayer) :
  (forall l, l ∈ layers -> layer_type l = "symbol" ->
             layer_layout l <> None) ->
  (exists below l above,
     layers = below ++ l :: above /\
     isLabelLayer l /\
     Forall (fun l0 => ~ isLabelLayer l0) above /\
     labelLayerId layers = Some (layer_id l)) \/
  (Forall (fun l0 => ~ isLabelLayer l0) layers /\
   labelLayerId layers = Some EmptyString).
Proof.
  intros Hlay. unfold labelLayerId.
  destruct (scanLabelLayer_spec (rev layers)) as
    [(above & l & below & Hrev & Hab & Hl & Hs) | [Hall Hs]].
  - intros l Hin. apply Hlay. apply elem_of_rev. exact Hin.
  - left. exists (rev below), l, (rev above).
    split.
    { rewrite <- (rev_involutive layers), Hrev.
      rewrite rev_app_distr. cbn. rewrite <- app_assoc. reflexivity. }
    split; [exact Hl |]. split; [| exact Hs].
    apply Forall_forall. intros l0 Hin.
    eapply Forall_forall in Hab; [exact Hab |].
    apply elem_of_rev. exact Hin.
  - right. split; [| exact Hs].
    apply Forall_forall. intros l0 Hin.
    eapply Forall_forall in Hall; [exact Hall |].
    apply elem_of_rev. exact Hin.
Qed.

(** ** Tilt and rotation controls *)

Lemma clamp_range (x : R) : 0 <= Math_max 0 (Js.min 85 x) <= 85.
Proof.
  unfold Math_max, Js.min, Rmax, Rmin.
  destruct (Rle_dec 85 x); destruct (Rle_dec 0 _); lra.
Qed.

Lemma handleKeyDown_pitch (k : Key) (c : MapCamera) :
  0 <= cam_pitch c <= 85 -> 0 <= cam_pitch (handleKeyDown k c) <= 85.
Proof.
  intros Hp. destruct k; cbn; try exact Hp.
  - unfold Js.min, Rmin. destruct (Rle_dec (cam_pitch c + 5) 85); lra.
  - unfold Math_max, Rmax. destruct (Rle_dec (cam_pitch c - 5) 0); lra.
Qed.

(** X17. The tilt controls keep the pitch between 0 and 85 degrees: any
    sequence of arrow keys (or presses of the tilt buttons) from a pitch
    in that range ends in that range, and a Shift-drag sets a pitch in
    that range whatever the pitch and pointer positions were. *)
Theorem pitch_stays_within_limits (keys : list Key) (c : MapCamera) :
  0 <= cam_pitch c <= 85 ->
  0 <= cam_pitch (fold_left (fun c0 k => handleKeyDown k c0) keys c) <= 85 /\
  (forall startY startPitch clientY,
     0 <= dragPitch startY startPitch clientY <= 85).
Proof.
  intros Hp. split.
  - revert c Hp. induction keys as [| k rest IH]; intros c Hp; [exact Hp |].
    cbn [fold_left]. apply IH, handleKeyDown_pitch, Hp.
  - intros startY startPitch clientY. apply clamp_range.
Qed.

(** X18. Rotating left and right undo each other; tilting up and down
    undo each other except at the limits, where the pitch stays at 85 or
    at 0.  A Shift-drag changes the pitch by one degree per 10 pixels
    until a limit is met, moving the pointer down never raises it, and
    bringing the pointer back to where the drag began restores the pitch
    it began with. *)
Theorem tilt_controls_invert (c : MapCamera) :
  handleKeyDown ArrowRight (handleKeyDown ArrowLeft c) = c /\
  handleKeyDown ArrowLeft (handleKeyDown ArrowRight c) = c /\
  (0 <= cam_pitch c <= 80 ->
   handleKeyDown ArrowDown (handleKeyDown ArrowUp c) = c) /\
  (5 <= cam_pitch c <= 85 ->
   handleKeyDown ArrowUp (handleKeyDown ArrowDown c) = c) /\
  (80 <= cam_pitch c <= 85 -> cam_pitch (handleKeyDown ArrowUp c) = 85) /\
  (0 <= cam_pitch c <= 5 -> cam_pitch (handleKeyDown ArrowDown c) = 0) /\
  (forall startY startPitch clientY,
     0 <= startPitch - (clientY - startY) / 10 <= 85 ->
     dragPitch startY startPitch clientY
       = startPitch - (clientY - startY) / 10) /\
  (forall startY startPitch y1 y2, y1 <= y2 ->
     dragPitch startY startPitch y2 <= dragPitch startY startPitch y1) /\
  (forall startY startPitch, 0 <= startPitch <= 85 ->
     dragPitch startY startPitch startY = startPitch).
Proof.
  destruct c as [p b].
  assert (Hdrag : forall startY startPitch clientY,
            0 <= startPitch - (clientY - startY) / 10 <= 85 ->
            dragPitch startY startPitch clientY
              = startPitch - (clientY - startY) / 10).
  { intros startY startPitch clientY Hin.
    unfold dragPitch, Math_max, Js.min, Rmax, Rmin. cbv zeta.
    destruct (Rle_dec 85 _); destruct (Rle_dec 0 _); lra. }
  repeat split.
  - cbn. f_equal. ring.
  - cbn. f_equal. ring.
  - cbn. intros Hp. f_equal. unfold Math_max, Js.min, Rmax, Rmin.
    destruct (Rle_dec (p + 5) 85); destruct (Rle_dec _ 0); lra.
  - cbn. intros Hp. f_equal. unfold Math_max, Js.min, Rmax, Rmin.
    destruct (Rle_dec (p - 5) 0); destruct (Rle_dec _ 85); lra.
  - cbn. intros Hp. unfold Js.min, Rmin. destruct (Rle_dec (p + 5) 85); lra.
  - cbn. intros Hp. unfold Math_max, Rmax. destruct (Rle_dec (p - 5) 0); lra.
  - exact Hdrag.
  - intros startY startPitch y1 y2 Hle.
    unfold dragPitch, Math_max, Js.min. cbv zeta.
    apply Rle_max_compat_l, Rle_min_compat_l. lra.
  - intros startY startPitch Hin. rewrite Hdrag; lra.
Qed.

(** ** The dispatch page *)

Lemma animateOfficer_flagged (now rnd : R) (b : bool) (id : string)
    (o : PoliceOfficer) (data : option OfficerData) :
  animateOfficer now rnd
    (if String.eqb (o_id o) id
     then mkOfficer (o_id o) (o_name o) (o_role o) (o_location o)
                    (o_heading o) (Some b)
     else o) data
  = (fun r : Feature * option OfficerData => (flagged b id (fst r), snd r))
      <$> animateOfficer now rnd o data.
Proof.
  assert (Hfeat : forall h c,
    feature (if String.eqb (o_id o) id
             then mkOfficer (o_id o) (o_name o) (o_role o) (o_location o)
                            (o_heading o) (Some b)
             else o) h c
    = flagged b id (feature o h c)).
  { intros h c. unfold flagged, feature. cbn.
    destruct (String.eqb (o_id o) id); reflexivity. }
  assert (Hloc : o_location (if String.eqb (o_id o) id
             then mkOfficer (o_id o) (o_name o) (o_role o) (o_location o)
                            (o_heading o) (Some b)
             else o) = o_location o)
    by (destruct (String.eqb (o_id o) id); reflexivity).
  unfold animateOfficer. destruct data as [d |].
  - destruct (step now rnd d) as [d' |]; [| reflexivity].
    cbn. do 2 f_equal. unfold emit. destruct (route d); apply Hfeat.
  - cbn. rewrite Hfeat, Hloc. reflexivity.
Qed.

(** X19. Dispatching an officer, or ending the dispatch, does not disturb
    the simulation: a frame over the updated officers leaves [officerData]
    as the frame over the old ones does, and emits the same features
    except that those of the officer carry the new [dispatched] flag. *)
Theorem dispatch_changes_only_the_flag
    (now : R) (b : bool) (id : string)
    (officers : list PoliceOfficer) (draws : list R)
    (st : gmap string OfficerData) :
  length draws = length officers ->
  animateOfficers now (zip (setDispatched b id officers) draws) st
  = (fun r : list Feature * gmap string OfficerData =>
       (flagged b id <$> fst r, snd r))
      <$> animateOfficers now (zip officers draws) st.
Proof.
  revert draws st. induction officers as [| o rest IH];
    intros [| rnd draws] st Hlen; try discriminate; [reflexivity |].
  cbn [setDispatched fmap list_fmap zip zip_with animateOfficers].
  rewrite animateOfficer_flagged.
  destruct (animateOfficer now rnd o (st !! o_id o)) as [[f data'] |] eqn:Hone.
  - assert (Hid : o_id (if String.eqb (o_id o) id
                        then mkOfficer (o_id o) (o_name o) (o_role o)
                               (o_location o) (o_heading o) (Some b)
                        else o) = o_id o)
      by (destruct (String.eqb (o_id o) id); reflexivity).
    rewrite Hid, Hone. cbn [fmap option_fmap option_map fst snd].
    fold (setDispatched b id rest).
    change (zip_with pair (setDispatched b id rest) draws)
      with (zip (setDispatched b id rest) draws).
    rewrite IH by (cbn in Hlen; lia).
    change (zip_with pair rest draws) with (zip rest draws).
    destruct (animateOfficers now (zip rest draws) _) as [[fs st'] |];
      reflexivity.
  - assert (Hid : o_id (if String.eqb (o_id o) id
                        then mkOfficer (o_id o) (o_name o) (o_role o)
                               (o_location o) (o_heading o) (Some b)
                        else o) = o_id o)
      by (destruct (String.eqb (o_id o) id); reflexivity).
    rewrite Hid, Hone. reflexivity.
Qed.

(** X21. Muting and selecting are toggles: [toggleMute] twice gives back
    the calls, it keeps every id, name and position in the list and flips
    the mute flag of the calls with the id only; [toggleCallSelection]
    flips the membership of the id, leaves the other ids alone, and
    twice gives back the selection. *)
Theorem call_toggles_are_involutions
    (callId : string) (calls : list Call) (selected : gset string) :
  toggleMute callId (toggleMute callId calls) = calls /\
  call_id <$> toggleMute callId calls = call_id <$> calls /\
  call_name <$> toggleMute callId calls = call_name <$> calls /\
  (forall i c, calls !! i = Some c ->
     exists c', toggleMute callId calls !! i = Some c' /\
       isMuted c' = (if String.eqb (call_id c) callId
                     then negb (isMuted c) else isMuted c)) /\
  toggleCallSelection callId (toggleCallSelection callId selected)
    = selected /\
  (callId ∈ toggleCallSelection callId selected <-> callId ∉ selected) /\
  (forall k, k <> callId ->
     (k ∈ toggleCallSelection callId selected <-> k ∈ selected)).
Proof.
  assert (Hflip : forall c,
    (fun c => if String.eqb (call_id c) callId
              then mkCall (call_id c) (call_name c) (call_role c)
                          (call_duration c) (negb (isMuted c)) (isActive c)
              else c)
      ((fun c => if String.eqb (call_id c) callId
                 then mkCall (call_id c) (call_name c) (call_role c)
                             (call_duration c) (negb (isMuted c)) (isActive c)
                 else c) c) = c).
  { intros c. destruct (String.eqb (call_id c) callId) eqn:He; cbn;
      rewrite He; [| reflexivity].
    destruct c; cbn. rewrite negb_involutive. reflexivity. }
  split.
  { unfold toggleMute. rewrite <- list_fmap_compose.
    rewrite <- (list_fmap_id calls) at 2. apply list_fmap_ext.
    intros i c _. apply Hflip. }
  split.
  { unfold toggleMute. rewrite <- list_fmap_compose. apply list_fmap_ext.
    intros i c _. cbn. destruct (String.eqb (call_id c) callId); reflexivity. }
  split.
  { unfold toggleMute. rewrite <- list_fmap_compose. apply list_fmap_ext.
    intros i c _. cbn. destruct (String.eqb (call_id c) callId); reflexivity. }
  split.
  { intros i c Hi. unfold toggleMute. rewrite list_lookup_fmap, Hi. cbn.
    eexists. split; [reflexivity |].
    destruct (String.eqb (call_id c) callId); reflexivity. }
  unfold toggleCallSelection.
  split.
  { destruct (decide (callId ∈ selected)) as [Hin | Hout].
    - rewrite decide_False by set_solver.
      apply set_eq. intros k. destruct (decide (k = callId)); set_solver.
    - rewrite decide_True by set_solver. set_solver. }
  split.
  { destruct (decide (callId ∈ selected)); set_solver. }
  intros k Hk. destruct (decide (callId ∈ selected)); set_solver.
Qed.

(** * The further statements at concrete inputs *)

Lemma heading_south_moves :
  step 7500 0 heading_south
    = Some (advance 7500 south_of_plaza heading_south).
Proof.
  exact (step_moving 7500 0 heading_south heading_south south_of_plaza
           eq_refl eq_refl heading_south_far).
Qed.

Lemma frame_displacement_bounded_witness :
  step 7500 0 heading_south
    = Some (advance 7500 south_of_plaza heading_south) /\
  dist (current heading_south)
       (current (advance 7500 south_of_plaza heading_south))
    <= 3 * baseSpeed.
Proof.
  split; [exact heading_south_moves |].
  exact (frame_displacement_bounded 7500 0 _ _ heading_south_moves).
Defined.

Lemma moving_tick_stops_short_witness :
  waitGate 7500 heading_south = Some heading_south /\
  route heading_south !! routeIndex heading_south = Some south_of_plaza /\
  epsilon < dist (current heading_south) south_of_plaza /\
  exists d' : OfficerData,
    step 7500 0 heading_south = Some d' /\
    5 / 10000000 < dist (current d') south_of_plaza.
Proof.
  repeat (split; [first [reflexivity | exact heading_south_far] |]).
  destruct (moving_tick_stops_short 7500 0 heading_south heading_south
              south_of_plaza eq_refl eq_refl heading_south_far)
    as (d' & Hstep & _ & _ & _ & Hgap).
  exists d'. auto.
Defined.

Lemma nearly_there_near : dist (current nearly_there) plaza <= epsilon.
Proof. apply dist_le; unfold epsilon; cbn; lra. Qed.

Lemma approaching_far : epsilon < dist (current approaching) plaza.
Proof. apply dist_gt; unfold epsilon; cbn; lra. Qed.

Lemma approaching_within_reach :
  dist (current approaching) plaza - epsilon
    <= (INR (length [(9000, 1 / 2); (9016, 1 / 2)]) - 1) * baseSpeed.
Proof.
  assert (Hd : dist (current approaching) plaza <= 6 / 1000000)
    by (apply dist_le; cbn; lra).
  cbn [length INR]. unfold epsilon, baseSpeed. lra.
Qed.

Lemma unit_arrives_within_bounded_frames_witness :
  waitingUntil approaching = None /\
  route approaching !! routeIndex approaching = Some plaza /\
  epsilon < dist (current approaching) plaza /\
  exists (pre post : list (R * R)) (t : R * R) (fs : list Feature)
         (d1 : OfficerData),
    [(9000, 1 / 2); (9016, 1 / 2)] = pre ++ t :: post /\
    pre <> [] /\
    run officer_U1 pre approaching = Some (fs, d1) /\
    dist (current d1) plaza <= epsilon /\
    step (fst t) (snd t) d1 = Some (arrive (fst t) (snd t) d1).
Proof.
  split; [reflexivity |]. split; [reflexivity |].
  split; [exact approaching_far |].
  destruct (unit_arrives_within_bounded_frames officer_U1
              [(9000, 1 / 2); (9016, 1 / 2)] approaching plaza
              eq_refl eq_refl)
    as (pre & post & t & fs & d1 & Hsplit & Hrun & _ & _ & Hnear & Hstep).
  - repeat constructor; cbn; lra.
  - discriminate.
  - exact approaching_within_reach.
  - exists pre, post, t, fs, d1.
    split; [exact Hsplit |]. split; [| auto].
    intros ->. injection Hrun as _ <-.
    pose proof approaching_far. lra.
Defined.

Lemma nearly_there_arrives (now rnd : R) :
  step now rnd nearly_there = Some (arrive now rnd nearly_there).
Proof.
  exact (step_arriving now rnd nearly_there nearly_there plaza
           eq_refl eq_refl nearly_there_near).
Qed.

Lemma two_officers_ok : store_ok two_officers.
Proof.
  unfold two_officers.
  repeat apply store_ok_insert.
  - intros k d Hk. rewrite lookup_empty in Hk. discriminate.
  - right. cbn. lia.
  - right. cbn. lia.
Qed.

(** The frame at clock reading 7500 over both officers: U1 arrives and
    its index wraps to 0, U2 advances. *)
Lemma two_officers_frame :
  animateOfficers 7500 [(officer_U1, 1 / 2); (officer_U2, 0)] two_officers
  = Some ([emit officer_U1 (Some nearly_there)
                (arrive 7500 (1 / 2) nearly_there);
           emit officer_U2 (Some heading_south)
                (advance 7500 south_of_plaza heading_south)],
          <["U2" := advance 7500 south_of_plaza heading_south]>
            (<["U1" := arrive 7500 (1 / 2) nearly_there]> two_officers)).
Proof.
  cbn [animateOfficers].
  change (o_id officer_U1) with "U1". change (o_id officer_U2) with "U2".
  assert (H1 : two_officers !! "U1" = Some nearly_there)
    by apply lookup_insert_eq.
  rewrite H1. unfold animateOfficer at 1. rewrite nearly_there_arrives.
  assert (H2 : <["U1" := arrive 7500 (1 / 2) nearly_there]> two_officers
               !! "U2" = Some heading_south).
  { rewrite lookup_insert_ne by discriminate. unfold two_officers.
    rewrite lookup_insert_ne by discriminate. apply lookup_insert_eq. }
  rewrite H2. unfold animateOfficer. rewrite heading_south_moves.
  reflexivity.
Qed.

Lemma frames_keep_store_well_formed_witness :
  store_ok two_officers /\
  exists (fs : list Feature) (st' : gmap string OfficerData),
    animateOfficers 7500 [(officer_U1, 1 / 2); (officer_U2, 0)] two_officers
      = Some (fs, st') /\
    store_ok st' /\
    dom st' = dom two_officers /\
    st' !! "U1" = Some (arrive 7500 (1 / 2) nearly_there) /\
    routeIndex (arrive 7500 (1 / 2) nearly_there) = 0%nat.
Proof.
  split; [exact two_officers_ok |].
  destruct (frames_keep_store_well_formed 7500
              [(officer_U1, 1 / 2); (officer_U2, 0)] two_officers
              two_officers_ok)
    as (_ & _ & fs & st' & Hrun & Hok & Hdom & _).
  exists fs, st'. split; [exact Hrun |]. split; [exact Hok |].
  split; [exact Hdom |].
  rewrite two_officers_frame in Hrun. injection Hrun as _ <-.
  split; [| reflexivity].
  rewrite lookup_insert_ne by discriminate. apply lookup_insert_eq.
Defined.

Lemma lone_frame_without_entry :
  animateOfficers 1000 [(officer_U1, 0)] ∅
    = Some ([feature officer_U1 0 plaza], ∅).
Proof. cbn. rewrite lookup_empty. reflexivity. Qed.

Lemma unknown_officer_never_moves_witness :
  animateOfficers 1000 [(officer_U1, 0)] ∅
    = Some ([feature officer_U1 0 plaza], ∅) /\
  (∅ : gmap string OfficerData) !! o_id officer_U1 = None /\
  feature officer_U1 0 (o_location officer_U1) ∈ [feature officer_U1 0 plaza].
Proof.
  split; [exact lone_frame_without_entry |].
  split; [apply lookup_empty |].
  destruct (unknown_officer_never_moves 1000 [(officer_U1, 0)] ∅ ∅
              [feature officer_U1 0 plaza] officer_U1 0
              lone_frame_without_entry) as [_ Hin].
  - left.
  - apply lookup_empty.
  - exact Hin.
Defined.

Lemma frame_steps_each_officer_alone_witness :
  NoDup ((fun p : PoliceOfficer * R => o_id (fst p))
           <$> [(officer_U1, 1 / 2); (officer_U2, 0)]) /\
  (exists d', step 7500 (1 / 2) nearly_there = Some d' /\
     <["U2" := advance 7500 south_of_plaza heading_south]>
       (<["U1" := arrive 7500 (1 / 2) nearly_there]> two_officers)
       !! "U1" = Some d') /\
  (exists d', step 7500 0 heading_south = Some d' /\
     <["U2" := advance 7500 south_of_plaza heading_south]>
       (<["U1" := arrive 7500 (1 / 2) nearly_there]> two_officers)
       !! "U2" = Some d').
Proof.
  assert (Hnd : NoDup ((fun p : PoliceOfficer * R => o_id (fst p))
                         <$> [(officer_U1, 1 / 2); (officer_U2, 0)])).
  { cbn. apply NoDup_cons. split; [| apply NoDup_singleton].
    intros Hin. apply list_elem_of_singleton in Hin. discriminate. }
  split; [exact Hnd |].
  destruct (frame_steps_each_officer_alone 7500
              [(officer_U1, 1 / 2); (officer_U2, 0)] two_officers _ _
              Hnd two_officers_frame) as [_ Hown].
  split.
  - apply (Hown officer_U1 (1 / 2) nearly_there); [left |].
    apply lookup_insert_eq.
  - apply (Hown officer_U2 0 heading_south); [right; left |].
    unfold two_officers. rewrite lookup_insert_ne by discriminate.
    apply lookup_insert_eq.
Defined.

Lemma heading_south_turns :
  heading (advance 7500 south_of_plaza heading_south) = -90.
Proof.
  cbn. unfold headingTo.
  replace (-84388 / 1000 - -84388 / 1000) with 0 by lra.
  rewrite atan2_south by lra.
  pose proof PI_RGT_0. field. lra.
Qed.

Lemma heading_south_run :
  run officer_U1 [(7500, 0)] heading_south
  = Some ([emit officer_U1 (Some heading_south)
                (advance 7500 south_of_plaza heading_south)],
          advance 7500 south_of_plaza heading_south).
Proof. cbn [run]. rewrite heading_south_moves. reflexivity. Qed.

Lemma emitted_headings_range_witness :
  -180 < heading heading_south < 360 /\
  run officer_U1 [(7500, 0)] heading_south
    = Some ([emit officer_U1 (Some heading_south)
                  (advance 7500 south_of_plaza heading_south)],
            advance 7500 south_of_plaza heading_south) /\
  f_heading (emit officer_U1 (Some heading_south)
               (advance 7500 south_of_plaza heading_south)) = -90 /\
  Forall (fun f => -180 < f_heading f < 360)
    [emit officer_U1 (Some heading_south)
          (advance 7500 south_of_plaza heading_south)] /\
  -180 < heading (advance 7500 south_of_plaza heading_south) <= 180.
Proof.
  assert (Hh : -180 < heading heading_south < 360) by (cbn; lra).
  split; [exact Hh |]. split; [exact heading_south_run |].
  split; [exact heading_south_turns |].
  destruct (emitted_headings_range officer_U1 [(7500, 0)] heading_south _ _
              Hh heading_south_run) as (Hall & _ & Hmoved).
  split; [exact Hall |].
  apply (Hmoved 7500 0 heading_south _ heading_south_moves).
  rewrite heading_south_turns. cbn. lra.
Defined.

Lemma unit_holds_for_two_seconds_witness :
  0 <= 1 / 2 /\
  route heading_south <> [] /\
  Forall (fun tk : R * R => fst tk < 0 + 2000) [(1000, 0); (1999, 0)] /\
  exists fs : list Feature,
    run officer_U1 [(1000, 0); (1999, 0)] (arrive 0 (1 / 2) heading_south)
      = Some (fs, arrive 0 (1 / 2) heading_south).
Proof.
  assert (Hrnd : 0 <= 1 / 2) by lra.
  assert (Hne : route heading_south <> []) by discriminate.
  assert (Hticks : Forall (fun tk : R * R => fst tk < 0 + 2000)
                     [(1000, 0); (1999, 0)])
    by (repeat constructor; cbn; lra).
  repeat (split; [assumption |]).
  destruct (unit_holds_for_two_seconds officer_U1 0 (1 / 2) heading_south
              [(1000, 0); (1999, 0)] Hrnd Hne Hticks) as (fs & Hrun & _).
  exists fs. exact Hrun.
Defined.

Lemma back_at_start_arrives :
  step 11500 0 back_at_start
    = Some (arrive 11500 0 (clearWait 11500 back_at_start)).
Proof.
  exact (step_arriving 11500 0 back_at_start
           (clearWait 11500 back_at_start) plaza back_at_start_resumes
           eq_refl back_at_start_near).
Qed.

Lemma index_moves_only_on_arrival_witness :
  step 11500 0 back_at_start
    = Some (arrive 11500 0 (clearWait 11500 back_at_start)) /\
  (routeIndex (arrive 11500 0 (clearWait 11500 back_at_start))
     = routeIndex back_at_start \/
   exists target : point,
     route back_at_start !! routeIndex back_at_start = Some target /\
     dist (current back_at_start) target <= epsilon).
Proof.
  split; [exact back_at_start_arrives |].
  destruct (index_moves_only_on_arrival 11500 0 _ _ back_at_start_arrives)
    as [Hsame | (target & Ht & Hnear & _)].
  - left. exact Hsame.
  - right. exists target. auto.
Defined.

Lemma arrivals_cycle_through_route_witness :
  (routeIndex heading_south < length (route heading_south))%nat /\
  routeIndex (arrivals [(0, 0); (5000, 0); (10000, 0)] heading_south)
    = routeIndex heading_south.
Proof.
  assert (Hlt : (routeIndex heading_south < length (route heading_south))%nat)
    by (cbn; lia).
  split; [exact Hlt |].
  destruct (arrivals_cycle_through_route [(0, 0); (5000, 0); (10000, 0)]
              heading_south Hlt) as [_ Hback].
  apply Hback. reflexivity.
Defined.

Lemma route_reveal_is_bounded_and_ends_witness :
  0 <= 2500 /\
  0 <= 3 /\
  0 <= rf_gradientStop (animateRoute (fun _ => plaza) 3 0 2500 None) <= 1 /\
  rf_again (animateRoute (fun _ => plaza) 3 0 2500 None) = true.
Proof.
  assert (H1 : 0 <= 2500) by lra. assert (H2 : 0 <= 3) by lra.
  split; [exact H1 |]. split; [exact H2 |].
  destruct (route_reveal_is_bounded_and_ends (fun _ => plaza) 3 0 2500 None
              H1 H2) as (Hstop & _ & _ & Hagain & _).
  split; [exact Hstop |]. apply Hagain. lra.
Defined.

Lemma sample_style_layouts :
  forall l, l ∈ sample_style -> layer_type l = "symbol" ->
            layer_layout l <> None.
Proof.
  intros l Hin Ht. unfold sample_style in Hin.
  repeat (apply elem_of_cons in Hin as [-> | Hin]);
    try discriminate; inversion Hin.
Qed.

Lemma labelLayerId_is_topmost_label_witness :
  (forall l, l ∈ sample_style -> layer_type l = "symbol" ->
             layer_layout l <> None) /\
  labelLayerId sample_style = Some "road-label" /\
  ((exists below l above,
      sample_style = below ++ l :: above /\
      isLabelLayer l /\
      Forall (fun l0 => ~ isLabelLayer l0) above /\
      labelLayerId sample_style = Some (layer_id l)) \/
   (Forall (fun l0 => ~ isLabelLayer l0) sample_style /\
    labelLayerId sample_style = Some EmptyString)).
Proof.
  split; [exact sample_style_layouts |]. split; [reflexivity |].
  exact (labelLayerId_is_topmost_label sample_style sample_style_layouts).
Defined.

Lemma pitch_stays_within_limits_witness :
  0 <= cam_pitch (mkCamera 80 30) <= 85 /\
  0 <= cam_pitch (fold_left (fun c0 k => handleKeyDown k c0)
                    [ArrowUp; ArrowUp; ArrowLeft; ArrowDown]
                    (mkCamera 80 30)) <= 85.
Proof.
  assert (Hp : 0 <= cam_pitch (mkCamera 80 30) <= 85) by (cbn; lra).
  split; [exact Hp |].
  destruct (pitch_stays_within_limits
              [ArrowUp; ArrowUp; ArrowLeft; ArrowDown] (mkCamera 80 30) Hp)
    as [Hkeys _].
  exact Hkeys.
Defined.

Lemma dispatch_changes_only_the_flag_witness :
  length [0] = length [officer_U1] /\
  animateOfficers 1000 (zip (setDispatched true "U1" [officer_U1]) [0]) ∅
  = (fun r : list Feature * gmap string OfficerData =>
       (flagged true "U1" <$> fst r, snd r))
      <$> animateOfficers 1000 (zip [officer_U1] [0]) ∅.
Proof.
  split; [reflexivity |].
  exact (dispatch_changes_only_the_flag 1000 true "U1" [officer_U1] [0] ∅
           eq_refl).
Defined.
